(** * Maximum-forward-matching segmenter of [Lab1/lab1.c]

    A shallow embedding of the segmentation core of [lab1.c]: the UTF-8
    scanner [get_utf8_char_len], the punctuation classifier
    [check_punctuation] over the table [PUNCTUATIONS], the stopword test
    [is_stopword], the frequency table kept by [add_token_count], the
    tokenizer loop [segment_line_in_memory] and the comparison function
    [cmp_wordcount] handed to [qsort] by [main].

    Conventions.
    - A [char *] argument is the list of the bytes that follow the pointer;
      the terminating NUL is implicit at the end of the list, and a NUL
      inside the list ends the C string there, as it does for [strlen],
      [strcmp], [strncmp] and [strncpy].
    - [line + start] is [skipn start line].
    - [size_t] cursors are [nat]: a line read by [read_sentences] has fewer
      than 2048 bytes, so the cursor arithmetic of the tokenizer cannot wrap.
    - [malloc] and [realloc] are taken to succeed. *)

From Stdlib Require Import Strings.Byte Strings.String.
From Stdlib Require Import ZArith List Lia Bool Arith.
From Stdlib Require Import Sorting.Sorted Sorting.Permutation.
Import ListNotations.

(** ** Bytes and C strings *)

Module CStr.

(** The value of a [char] as an [unsigned char]. *)
Definition uchar (b : byte) : Z := Z.of_N (Byte.to_N b).

(** The value of a [char] promoted to [int] where [char] is signed. *)
Definition schar (b : byte) : Z :=
  (if uchar b <? 128 then uchar b else uchar b - 256)%Z.

Definition is_nul (b : byte) : bool := Byte.eqb b x00.

(** Bytes written with a string literal (the literal is UTF-8). *)
Definition bytes_of (s : string) : list byte := list_byte_of_string s.
Arguments bytes_of s%_string.

(** The C string at a pointer: the bytes before the first NUL. *)
Fixpoint cstr (s : list byte) : list byte :=
  match s with
  | [] => []
  | c :: s' => if is_nul c then [] else c :: cstr s'
  end.

Definition strlen (s : list byte) : nat := length (cstr s).

(** [str[0]]: the byte at the pointer, the terminator at the end. *)
Definition deref (s : list byte) : byte := hd x00 s.

(** [strcmp(a, b) == 0]. *)
Fixpoint strcmp_eq (a b : list byte) : bool :=
  let c1 := deref a in
  let c2 := deref b in
  if Byte.eqb c1 c2 then
    if is_nul c1 then true
    else match a with
         | [] => true
         | _ :: a' => strcmp_eq a' (tl b)
         end
  else false.

(** [strncmp(s, p, n) == 0]: at most [n] bytes are compared, and the
    comparison stops after a NUL that both strings share. *)
Fixpoint strncmp_eq (s p : list byte) (n : nat) : bool :=
  match n with
  | O => true
  | S n' =>
      let c1 := deref s in
      let c2 := deref p in
      if Byte.eqb c1 c2 then
        if is_nul c1 then true else strncmp_eq (tl s) (tl p) n'
      else false
  end.

(** [char temp[N] = {0}; strncpy(temp, src, n);] with [n < N]: the C string
    left in [temp] is made of the bytes of [src] before its first NUL, at
    most [n] of them. *)
Definition strncpy0 (src : list byte) (n : nat) : list byte :=
  cstr (firstn n src).

End CStr.
Import CStr.

(** ** UTF-8 scanner *)

(** [get_utf8_char_len] on the value of [str[0]] promoted to [int]. *)
Definition utf8_len_of_int (c : Z) : nat :=
  if (Z.land c 0x80 =? 0)%Z then 1
  else if (Z.land c 0xE0 =? 0xC0)%Z then 2
  else if (Z.land c 0xF0 =? 0xE0)%Z then 3
  else 1.

Definition get_utf8_char_len (str : list byte) : nat :=
  utf8_len_of_int (uchar (deref str)).

(** The three lead-byte patterns of the scanner, on the bits of a byte. *)
Definition high_bit_clear (b : byte) : bool := (uchar b <? 0x80)%Z.
Definition is_lead2 (b : byte) : bool :=
  ((0xC0 <=? uchar b) && (uchar b <? 0xE0))%Z.
Definition is_lead3 (b : byte) : bool :=
  ((0xE0 <=? uchar b) && (uchar b <? 0xF0))%Z.
Definition is_cont (b : byte) : bool :=
  ((0x80 <=? uchar b) && (uchar b <? 0xC0))%Z.
Definition is_lead4 (b : byte) : bool := (0xF0 <=? uchar b)%Z.

(** ** Punctuation classifier *)

Record PunctInfo := { punct : list byte; bytes : nat }.

(** The table of the source, entry by entry and in its order: 31 entries.
    The second line of the initialiser is lexed as C lexes it.  After the
    entry for U+FF1A it reads [{] followed by three quotation marks, the
    text [, 3}, {], three quotation marks again and [, 3}]: an empty
    literal, the literal [", 3}, {"] and another empty literal, which
    concatenate into ONE entry whose pattern is the seven bytes [, 3}, {]
    and whose length is 3.  The next two entries pair the one-byte ASCII
    apostrophe (0x27) with the length 3.  The last two entries are the
    escaped ASCII quotation mark with length 1 and U+201D with length 3. *)
Definition PUNCTUATIONS : list PunctInfo :=
  [ {| punct := bytes_of "，"; bytes := 3 |}; {| punct := bytes_of "。"; bytes := 3 |};
    {| punct := bytes_of "！"; bytes := 3 |}; {| punct := bytes_of "？"; bytes := 3 |};
    {| punct := bytes_of "；"; bytes := 3 |};
    {| punct := bytes_of "："; bytes := 3 |};
    {| punct := bytes_of ", 3}, {"; bytes := 3 |};
    {| punct := bytes_of "'"; bytes := 3 |};
    {| punct := bytes_of "'"; bytes := 3 |};
    {| punct := bytes_of "『"; bytes := 3 |}; {| punct := bytes_of "』"; bytes := 3 |};
    {| punct := bytes_of "【"; bytes := 3 |}; {| punct := bytes_of "】"; bytes := 3 |};
    {| punct := bytes_of "《"; bytes := 3 |};
    {| punct := bytes_of "》"; bytes := 3 |}; {| punct := bytes_of "、"; bytes := 3 |};
    {| punct := bytes_of "（"; bytes := 3 |}; {| punct := bytes_of "）"; bytes := 3 |};
    {| punct := bytes_of "［"; bytes := 3 |};
    {| punct := bytes_of "］"; bytes := 3 |}; {| punct := bytes_of "｛"; bytes := 3 |};
    {| punct := bytes_of "｝"; bytes := 3 |}; {| punct := bytes_of "※"; bytes := 3 |};
    {| punct := bytes_of "("; bytes := 1 |}; {| punct := bytes_of ")"; bytes := 1 |};
    {| punct := bytes_of "["; bytes := 1 |}; {| punct := bytes_of "]"; bytes := 1 |};
    {| punct := bytes_of "{"; bytes := 1 |};
    {| punct := bytes_of "}"; bytes := 1 |}; {| punct := [x22]; bytes := 1 |};
    {| punct := bytes_of "”"; bytes := 3 |} ].

(** The loop of [check_punctuation] over a table: [Some n] stands for the
    return value 1 with [*len = n], [None] for 0 with [*len = 0]. *)
Fixpoint check_punctuation_in (table : list PunctInfo) (str : list byte)
  : option nat :=
  match table with
  | [] => None
  | p :: table' =>
      if strncmp_eq str (punct p) (bytes p) then Some (bytes p)
      else check_punctuation_in table' str
  end.

Definition check_punctuation (str : list byte) : option nat :=
  check_punctuation_in PUNCTUATIONS str.

Definition is_some {A} (o : option A) : bool :=
  match o with Some _ => true | None => false end.

(** ** Lexicon *)

Fixpoint is_stopword (token : list byte) (stopwords : list (list byte)) : bool :=
  match stopwords with
  | [] => false
  | sw :: stopwords' =>
      if strcmp_eq token sw then true else is_stopword token stopwords'
  end.

(** The inner [for] of the tokenizer: is there an [i] with
    [strcmp(temp, dict[i]) == 0]. *)
Fixpoint in_dict (temp : list byte) (dict : list (list byte)) : bool :=
  match dict with
  | [] => false
  | d :: dict' => if strcmp_eq temp d then true else in_dict temp dict'
  end.

(** ** Frequency table *)

Record WordCount := { word : list byte; count : Z }.

(** The globals [g_word_counts] (its [g_word_total] used slots),
    [g_word_capacity] and [g_word_count]. *)
Record globals := {
  g_word_counts : list WordCount;
  g_word_capacity : Z;
  g_word_count : Z
}.

Definition g_word_total (g : globals) : Z := Z.of_nat (length (g_word_counts g)).

Definition SIZE_MOD : Z := 2 ^ 64.
Definition INT_MAX : Z := 2 ^ 31 - 1.

(** [size_t] arithmetic wraps. *)
Definition wrap_size (z : Z) : Z := (z mod SIZE_MOD)%Z.

(** [int] arithmetic, wrapped as two's complement does.  Overflow of a
    signed [int] is undefined in C; the statements about counts stay below
    [INT_MAX]. *)
Definition wrap_int (z : Z) : Z := ((z + 2 ^ 31) mod 2 ^ 32 - 2 ^ 31)%Z.

(** The search loop of [add_token_count]: the first entry whose word is
    [token] gets [count++]; [None] when no entry has it. *)
Fixpoint bump (token : list byte) (l : list WordCount) : option (list WordCount) :=
  match l with
  | [] => None
  | e :: l' =>
      if strcmp_eq (word e) token
      then Some ({| word := word e; count := wrap_int (count e + 1) |} :: l')
      else match bump token l' with
           | Some l'' => Some (e :: l'')
           | None => None
           end
  end.

Definition add_token_count (token : list byte) (g : globals) : globals :=
  let capacity :=
    if (g_word_capacity g <=? g_word_total g)%Z
    then (if (g_word_capacity g =? 0)%Z then 10%Z
          else wrap_size (g_word_capacity g * 2))
    else g_word_capacity g in
  let n := wrap_size (g_word_count g + 1) in
  match bump token (g_word_counts g) with
  | Some l =>
      {| g_word_counts := l; g_word_capacity := capacity; g_word_count := n |}
  | None =>
      {| g_word_counts := g_word_counts g ++ [{| word := cstr token; count := 1 |}];
         g_word_capacity := capacity; g_word_count := n |}
  end.

(** The count the table holds for a token: that of the first entry with
    this word, 0 when there is none. *)
Fixpoint count_of (token : list byte) (l : list WordCount) : Z :=
  match l with
  | [] => 0%Z
  | e :: l' => if strcmp_eq (word e) token then count e else count_of token l'
  end.

(** Does the table have an entry for the token. *)
Fixpoint has_word (token : list byte) (l : list WordCount) : bool :=
  match l with
  | [] => false
  | e :: l' => if strcmp_eq (word e) token then true else has_word token l'
  end.

(** [n] calls of [add_token_count] with the same token. *)
Fixpoint record_times (n : nat) (token : list byte) (g : globals) : globals :=
  match n with
  | O => g
  | S n' => record_times n' token (add_token_count token g)
  end.

(** ** Tokenizer *)

Definition MAX_CHINESE_BYTES : nat := 21.

(** What the tokenizer writes to: the segmented file and the globals. *)
Record world := { seg_file : list byte; tbl : globals }.

(** [fprintf(seg_file, "[%s]", temp); add_token_count(temp);] *)
Definition emit (temp : list byte) (w : world) : world :=
  {| seg_file := seg_file w ++ [x5b] ++ cstr temp ++ [x5d];
     tbl := add_token_count temp (tbl w) |}.

Definition emit_opt (o : option (list byte)) (w : world) : world :=
  match o with Some temp => emit temp w | None => w end.

(** The [for] over [match_len], from [m] down to 1: the first length that
    fits in the line and whose copy [temp] is in the dictionary. *)
Fixpoint dict_match (m : nat) (line : list byte) (dict : list (list byte))
         (start : nat) : option (nat * list byte) :=
  match m with
  | O => None
  | S m' =>
      if start + m <=? strlen line then
        let temp := strncpy0 (skipn start line) m in
        if in_dict temp dict then Some (m, temp)
        else dict_match m' line dict start
      else dict_match m' line dict start
  end.

Inductive branch := Punctuation | DictMatch | Fallback.

(** One iteration of the [while]: where it ran, the branch taken, the
    amount added to [start] and the token written, if any. *)
Record step := {
  pos : nat;
  kind : branch;
  consumed : nat;
  emitted : option (list byte)
}.

Definition segment_step (line : list byte) (dict stopwords : list (list byte))
           (start : nat) : step :=
  match check_punctuation (skipn start line) with
  | Some punct_len =>
      {| pos := start; kind := Punctuation; consumed := punct_len;
         emitted := None |}
  | None =>
      match dict_match MAX_CHINESE_BYTES line dict start with
      | Some (match_len, temp) =>
          {| pos := start; kind := DictMatch; consumed := match_len;
             emitted := if is_stopword temp stopwords then None else Some temp |}
      | None =>
          let char_len := get_utf8_char_len (skipn start line) in
          let temp := strncpy0 (skipn start line) char_len in
          {| pos := start; kind := Fallback; consumed := char_len;
             emitted :=
               if negb (is_some (check_punctuation temp))
                  && negb (is_stopword temp stopwords)
               then Some temp else None |}
      end
  end.

(** The [while (start < len)] loop, with the iterations it may still make
    as fuel: the final cursor, the world and the iterations made, or [None]
    when the fuel ran out before the loop ended. *)
Fixpoint segment_loop (fuel : nat) (line : list byte)
         (dict stopwords : list (list byte)) (start : nat) (w : world)
  : option (nat * world * list step) :=
  if start <? strlen line then
    match fuel with
    | O => None
    | S fuel' =>
        let s := segment_step line dict stopwords start in
        match segment_loop fuel' line dict stopwords
                (start + consumed s) (emit_opt (emitted s) w) with
        | Some (final, w', tr) => Some (final, w', s :: tr)
        | None => None
        end
    end
  else Some (start, w, []).

(** [segment_line_in_memory]: the loop from cursor 0, then the newline. *)
Definition segment_line_in_memory (line : list byte)
           (dict stopwords : list (list byte)) (w : world)
  : option (nat * world * list step) :=
  match segment_loop (strlen line) line dict stopwords 0 w with
  | Some (final, w', tr) =>
      Some (final, {| seg_file := seg_file w' ++ [x0a]; tbl := tbl w' |}, tr)
  | None => None
  end.

(** The tokens written by a run, in order. *)
Fixpoint tokens (tr : list step) : list (list byte) :=
  match tr with
  | [] => []
  | s :: tr' =>
      match emitted s with
      | Some t => t :: tokens tr'
      | None => tokens tr'
      end
  end.

Definition empty_globals : globals :=
  {| g_word_counts := []; g_word_capacity := 0; g_word_count := 0 |}.
Definition empty_world : world := {| seg_file := []; tbl := empty_globals |}.

(** The bytes [[start, start + n)] of the line's text. *)
Definition substr (line : list byte) (start n : nat) : list byte :=
  firstn n (skipn start (cstr line)).

(** ** The tokenizer without the second punctuation check

    The variant the fallback branch is compared with: the same iteration,
    the extracted codepoint being written whenever it is not a stopword. *)

Definition segment_step_no_recheck (line : list byte)
           (dict stopwords : list (list byte)) (start : nat) : step :=
  match check_punctuation (skipn start line) with
  | Some punct_len =>
      {| pos := start; kind := Punctuation; consumed := punct_len;
         emitted := None |}
  | None =>
      match dict_match MAX_CHINESE_BYTES line dict start with
      | Some (match_len, temp) =>
          {| pos := start; kind := DictMatch; consumed := match_len;
             emitted := if is_stopword temp stopwords then None else Some temp |}
      | None =>
          let char_len := get_utf8_char_len (skipn start line) in
          let temp := strncpy0 (skipn start line) char_len in
          {| pos := start; kind := Fallback; consumed := char_len;
             emitted :=
               if negb (is_stopword temp stopwords) then Some temp else None |}
      end
  end.

Fixpoint segment_loop_no_recheck (fuel : nat) (line : list byte)
         (dict stopwords : list (list byte)) (start : nat) (w : world)
  : option (nat * world * list step) :=
  if start <? strlen line then
    match fuel with
    | O => None
    | S fuel' =>
        let s := segment_step_no_recheck line dict stopwords start in
        match segment_loop_no_recheck fuel' line dict stopwords
                (start + consumed s) (emit_opt (emitted s) w) with
        | Some (final, w', tr) => Some (final, w', s :: tr)
        | None => None
        end
    end
  else Some (start, w, []).

Definition segment_line_no_recheck (line : list byte)
           (dict stopwords : list (list byte)) (w : world)
  : option (nat * world * list step) :=
  match segment_loop_no_recheck (strlen line) line dict stopwords 0 w with
  | Some (final, w', tr) =>
      Some (final, {| seg_file := seg_file w' ++ [x0a]; tbl := tbl w' |}, tr)
  | None => None
  end.

(** The codepoint the fallback branch extracts at [start]. *)
Definition fallback_temp (line : list byte) (start : nat) : list byte :=
  strncpy0 (skipn start line) (get_utf8_char_len (skipn start line)).

(** ** Report *)

(** [cmp_wordcount]: [wb->count - wa->count], an [int]. *)
Definition cmp_wordcount (wa wb : WordCount) : Z :=
  wrap_int (count wb - count wa).

(** What the C library promises of [qsort(base, n, size, compar)]: the
    array holds the same elements, and no element compares greater than its
    successor. *)
Definition qsort_post {A} (compar : A -> A -> Z) (base sorted : list A) : Prop :=
  Permutation base sorted /\
  Sorted (fun x y => (compar x y <= 0)%Z) sorted.

(** The entries [main] prints after [qsort]: those at the indices
    [i < g_word_total && i < 10]. *)
Definition main_report (g : globals) (report : list WordCount) : Prop :=
  exists sorted,
    qsort_post cmp_wordcount (g_word_counts g) sorted /\
    report = firstn 10 sorted.

(** The counts of a table are those of an [int] that did not overflow. *)
Definition counts_in_range (l : list WordCount) : Prop :=
  Forall (fun e => (0 <= count e <= INT_MAX)%Z) l.

(** A candidate length of the [for] over [match_len] bounded by [m]: one
    the loop does not skip. *)
Definition fits (line : list byte) (start m L : nat) : Prop :=
  1 <= L <= m /\ start + L <= strlen line.

(** The candidate of length [L] at [start] passes the dictionary test. *)
Definition member (line : list byte) (dict : list (list byte)) (start L : nat)
  : Prop :=
  in_dict (substr line start L) dict = true.

(** The iterations [tr] lead the cursor from [start] to [final]: each one
    runs where the one before stopped and moves the cursor forward. *)
Fixpoint chained (start : nat) (tr : list step) (final : nat) : Prop :=
  match tr with
  | [] => final = start
  | s :: tr' =>
      pos s = start /\ start < start + consumed s /\
      chained (start + consumed s) tr' final
  end.

(** ** UTF-8 text *)

(** Text made of characters of one, two or three bytes, the alphabet of the
    scanner; [due] continuation bytes are still expected.  A NUL does not
    occur in a C string. *)
Fixpoint utf8_3 (due : nat) (s : list byte) : bool :=
  match s with
  | [] => due =? 0
  | b :: s' =>
      match due with
      | S due' => is_cont b && utf8_3 due' s'
      | O =>
          if is_nul b then false
          else if high_bit_clear b then utf8_3 0 s'
          else if is_lead2 b then utf8_3 1 s'
          else if is_lead3 b then utf8_3 2 s'
          else false
      end
  end.

Definition well_formed (s : list byte) : Prop := utf8_3 0 s = true.

(** A codepoint boundary of a text: its start, its end, or the index of a
    byte that is not a continuation byte. *)
Definition is_char_boundary (text : list byte) (i : nat) : bool :=
  (i =? 0) || (i =? length text) ||
  ((i <? length text) && negb (is_cont (nth i text x00))).

(** A token written at [pos s] is a slice of 1 to 21 bytes of the line. *)
Definition token_is_slice (line : list byte) (s : step) (t : list byte) : Prop :=
  1 <= length t <= MAX_CHINESE_BYTES /\
  pos s + length t <= strlen line /\
  t = substr line (pos s) (length t).

(** The slice starts and ends on a codepoint boundary of the line and is
    made of whole codepoints. *)
Definition token_on_boundaries (line : list byte) (s : step) (t : list byte)
  : Prop :=
  is_char_boundary (cstr line) (pos s) = true /\
  is_char_boundary (cstr line) (pos s + length t) = true /\
  well_formed t.

(** ** The punctuation table, entry by entry *)

(** The bytes of its pattern an entry is compared on: the first [bytes]
    of them. *)
Definition compared (p : PunctInfo) : list byte := firstn (bytes p) (punct p).

(** An entry whose pattern has the bytes its length declares, these bytes
    being well-formed text. *)
Definition prefix_entry (p : PunctInfo) : bool :=
  (bytes p <=? length (punct p)) && negb (existsb is_nul (punct p)) &&
  utf8_3 0 (compared p).

(** An entry of length 3 whose pattern is the ASCII apostrophe alone. *)
Definition short_apostrophe_entry (p : PunctInfo) : bool :=
  (bytes p =? 3) &&
  match punct p with
  | [q] => Byte.eqb q x27
  | _ => false
  end.

(** ** Spans *)

(** The bytes of the line under the span of an iteration. *)
Definition span_bytes (line : list byte) (s : step) : list byte :=
  substr line (pos s) (consumed s).

(** Coverage of a line by the iterations of a run: the spans follow one
    another from 0 to the end of the line, none reaches past the end, and
    their bytes, in order, are the line. *)
Definition covers (line : list byte) (tr : list step) : Prop :=
  chained 0 tr (strlen line) /\
  Forall (fun s => pos s + consumed s <= strlen line) tr /\
  concat (map (span_bytes line) tr) = cstr line.

(** ** What a run leaves behind *)

(** The bytes [fprintf(seg_file, "[%s]", temp)] writes for a token. *)
Definition render (t : list byte) : list byte := [x5b] ++ t ++ [x5d].

(** The calls of [add_token_count] for a sequence of tokens, in order. *)
Definition record_all (ts : list (list byte)) (g : globals) : globals :=
  fold_left (fun g t => add_token_count t g) ts g.

(** The sum of the counts of a table. *)
Definition sum_counts (l : list WordCount) : Z :=
  fold_right (fun e acc => (count e + acc)%Z) 0%Z l.

(** The table as [add_token_count] keeps it: the words are C strings, no
    two entries have the same word, every count is at least 1, and
    [g_word_count] is the sum of the counts. *)
Definition table_ok (g : globals) : Prop :=
  NoDup (map word (g_word_counts g)) /\
  Forall (fun e => cstr (word e) = word e /\ (1 <= count e)%Z) (g_word_counts g) /\
  sum_counts (g_word_counts g) = g_word_count g.

(** How many of the recorded tokens are the token [t]. *)
Definition occurrences (t : list byte) (ts : list (list byte)) : nat :=
  length (filter (fun x => strcmp_eq x t) ts).

(** The array of the table is large enough for its entries and at most
    twice as large as they need, 10 slots at least once allocated. *)
Definition capacity_ok (g : globals) : Prop :=
  (g_word_total g <= g_word_capacity g <= Z.max 10 (2 * g_word_total g))%Z.

(** ** Reading the input files

    [read_dict], [read_sentences] and [read_stopwords] are the same loop
    over [fgets] with a buffer of 256, 2048 and 256 bytes.  A file is the
    list of its bytes; [None] is a file that [fopen] cannot open. *)

(** The bytes one [fgets] stores when [k] more fit in the buffer: those up
    to and including the first newline, at most [k] of them; and the bytes
    left in the file. *)
Fixpoint fgets_take (k : nat) (stream : list byte) : list byte * list byte :=
  match k with
  | O => ([], stream)
  | S k' =>
      match stream with
      | [] => ([], [])
      | c :: rest =>
          if Byte.eqb c x0a then ([c], rest)
          else let (chunk, unread) := fgets_take k' rest in (c :: chunk, unread)
      end
  end.

(** [fgets(buf, size, file)]: NULL at the end of the file, else the buffer
    (at most [size - 1] bytes and the terminator) and the bytes left. *)
Definition fgets (size : nat) (stream : list byte)
  : option (list byte * list byte) :=
  match stream with
  | [] => None
  | _ :: _ => Some (fgets_take (size - 1) stream)
  end.

(** [strcspn(s, reject)]: the number of leading bytes of [s] that are not
    in [reject]. *)
Fixpoint strcspn (s reject : list byte) : nat :=
  match s with
  | [] => 0
  | c :: s' =>
      if is_nul c || existsb (Byte.eqb c) (cstr reject) then 0
      else S (strcspn s' reject)
  end.

(** [buf[k] = 0] for [k] up to the index of the terminator, where the
    store changes nothing. *)
Fixpoint store_nul (buf : list byte) (k : nat) : list byte :=
  match buf, k with
  | [], _ => []
  | _ :: buf', O => x00 :: buf'
  | c :: buf', S k' => c :: store_nul buf' k'
  end.

(** [strdup(s)]. *)
Definition strdup (s : list byte) : list byte := cstr s.

(** The [while (fgets(...))] loop: the entries stored and the capacity of
    their array; [None] when the fuel ran out before the end of the file. *)
Fixpoint read_loop (size fuel : nat) (stream : list byte) (capacity : Z)
         (entries : list (list byte)) : option (list (list byte) * Z) :=
  match fgets size stream with
  | None => Some (entries, capacity)
  | Some (line, unread) =>
      match fuel with
      | O => None
      | S fuel' =>
          let line := store_nul line (strcspn line [x0a]) in
          let capacity :=
            if (capacity <=? Z.of_nat (length entries))%Z
            then wrap_size (capacity * 2) else capacity in
          read_loop size fuel' unread capacity (entries ++ [strdup line])
      end
  end.

(** The three readers: [Some None] is the NULL returned when the file
    cannot be opened, [Some (Some entries)] the array and its size, and
    [None] a loop that did not end within the fuel, one iteration per byte
    of the file. *)
Definition read_lines (size : nat) (file : option (list byte))
  : option (option (list (list byte))) :=
  match file with
  | None => Some None
  | Some stream =>
      match read_loop size (length stream) stream 10 [] with
      | Some (entries, _) => Some (Some entries)
      | None => None
      end
  end.

Definition read_dict := read_lines 256.
Definition read_sentences := read_lines 2048.
Definition read_stopwords := read_lines 256.

(** A file made of lines: each line followed by a newline, then the bytes
    of a last line that has none. *)
Definition file_of (lines : list (list byte)) (last : list byte) : list byte :=
  concat (map (fun l => l ++ [x0a]) lines) ++ last.

(** A line [fgets] takes whole: free of newline and NUL and, newline
    included, not longer than the buffer holds. *)
Definition fits_buffer (size : nat) (l : list byte) : Prop :=
  length l + 2 <= size /\ ~ In x0a l /\ ~ In x00 l.

(** What a reader with a buffer of [size] bytes returns for a file: NULL
    when the file cannot be opened; else entries shorter than the buffer,
    free of newline and NUL, no more of them than the file has bytes and
    holding no more bytes than the file. *)
Definition reads_bounded (size : nat) (file : option (list byte))
           (result : option (option (list (list byte)))) : Prop :=
  match file with
  | None => result = Some None
  | Some stream =>
      exists entries,
        result = Some (Some entries) /\
        Forall (fun e => length e < size /\ ~ In x0a e /\ ~ In x00 e) entries /\
        length entries <= length stream /\
        length (concat entries) <= length stream
  end.

(** The last line of a file when it has no newline: one entry, none when
    it is empty. *)
Definition last_entry (last : list byte) : list (list byte) :=
  match last with [] => [] | _ :: _ => [last] end.

(** The entries the reading loop stores for the unread bytes of a file,
    without the array that holds them. *)
Fixpoint stored_entries (size fuel : nat) (stream : list byte)
  : list (list byte) :=
  match fgets size stream with
  | None => []
  | Some (line, unread) =>
      match fuel with
      | O => []
      | S fuel' =>
          strdup (store_nul line (strcspn line [x0a]))
            :: stored_entries size fuel' unread
      end
  end.

(** The bytes of a file that are not newlines. *)
Definition without_newlines (stream : list byte) : list byte :=
  filter (fun b => negb (Byte.eqb b x0a)) stream.

(** ** The driver *)

(** The [for] of [main] over the sentences, each one segmented into the
    same file and the same table. *)
Fixpoint segment_all (sentences : list (list byte))
         (dict stopwords : list (list byte)) (w : world) : option world :=
  match sentences with
  | [] => Some w
  | line :: sentences' =>
      match segment_line_in_memory line dict stopwords w with
      | Some (_, w', _) => segment_all sentences' dict stopwords w'
      | None => None
      end
  end.

(** The three files [main] reads. *)
Record inputs := {
  dict_file : option (list byte);
  sentence_file : option (list byte);
  stop_file : option (list byte)
}.

(** [main] up to its [qsort]: the three files are read and, when none of
    the readers returned NULL, every sentence is segmented; the result is
    the content of segmented.txt and the table.  The two output files are
    taken to open.  [None] is a reader or a tokenizer loop that did not
    end. *)
Definition main_segmentation (fs : inputs) : option world :=
  match read_dict (dict_file fs), read_sentences (sentence_file fs),
        read_stopwords (stop_file fs) with
  | Some dictionary, Some sentences, Some stopwords =>
      match dictionary, sentences, stopwords with
      | Some d, Some s, Some sw => segment_all s d sw empty_world
      | _, _, _ => Some empty_world
      end
  | _, _, _ => None
  end.

(** The newlines of a file. *)
Definition newlines (out : list byte) : nat := count_occ Byte.byte_eq_dec out x0a.

(** * Properties *)

(** ** UTF-8 scanner *)

(** The scanner does not depend on the signedness of [char]. *)
Lemma utf8_len_signedness (b : byte) :
  utf8_len_of_int (schar b) = utf8_len_of_int (uchar b).
Proof. destruct b; reflexivity. Qed.

(** The patterns are the masks of the source. *)
Lemma lead_patterns_masks (b : byte) :
  high_bit_clear b = (Z.land (uchar b) 0x80 =? 0)%Z /\
  is_lead2 b = (Z.land (uchar b) 0xE0 =? 0xC0)%Z /\
  is_lead3 b = (Z.land (uchar b) 0xF0 =? 0xE0)%Z.
Proof. destruct b; repeat split; reflexivity. Qed.

(** C6. For every byte position the scanner returns 1 when the high bit of
    the lead byte is 0, 2 when the byte matches 110xxxxx, 3 when it matches
    1110xxxx, and 1 for every other byte (a continuation byte 10xxxxxx or a
    lead 1111xxxx); it is total and its result is at least 1. *)
Theorem get_utf8_char_len_spec (str : list byte) :
  let b := deref str in
  (Z.testbit (uchar b) 7 = false -> get_utf8_char_len str = 1) /\
  (Z.shiftr (uchar b) 5 = 6%Z -> get_utf8_char_len str = 2) /\
  (Z.shiftr (uchar b) 4 = 14%Z -> get_utf8_char_len str = 3) /\
  (is_cont b = true \/ is_lead4 b = true -> get_utf8_char_len str = 1) /\
  (high_bit_clear b || is_lead2 b || is_lead3 b || is_cont b || is_lead4 b = true) /\
  1 <= get_utf8_char_len str <= 3.
Proof.
  unfold get_utf8_char_len. simpl. generalize (deref str) as b. intro b.
  destruct b; vm_compute; repeat split; try reflexivity; try discriminate;
    try lia; intros [H | H]; solve [reflexivity | discriminate H].
Qed.

(** The scanner on "a", on the lead bytes of "é" and of "中", on the lead
    byte F0 of a four-byte sequence and on a continuation byte. *)
Lemma get_utf8_char_len_spec_witness :
  get_utf8_char_len (bytes_of "a") = 1 /\
  get_utf8_char_len (bytes_of "é") = 2 /\
  get_utf8_char_len (bytes_of "中") = 3 /\
  get_utf8_char_len [xf0; x9f; x98; x80] = 1 /\
  get_utf8_char_len [x80] = 1.
Proof.
  split; [|split; [|split; [|split]]].
  - apply (proj1 (get_utf8_char_len_spec (bytes_of "a"))). reflexivity.
  - apply (proj1 (proj2 (get_utf8_char_len_spec (bytes_of "é")))). reflexivity.
  - apply (proj1 (proj2 (proj2 (get_utf8_char_len_spec (bytes_of "中"))))).
    reflexivity.
  - apply (proj1 (proj2 (proj2 (proj2
             (get_utf8_char_len_spec [xf0; x9f; x98; x80]))))).
    right. reflexivity.
  - apply (proj1 (proj2 (proj2 (proj2 (get_utf8_char_len_spec [x80]))))).
    left. reflexivity.
Defined.


(** ** C strings *)

Section CStrFacts.

Lemma byte_eqb_spec (a b : byte) : reflect (a = b) (Byte.eqb a b).
Proof.
  destruct (Byte.eqb a b) eqn:E; constructor.
  - now apply Byte.byte_dec_bl.
  - now apply Byte.eqb_false.
Qed.

Lemma is_nul_spec (b : byte) : reflect (b = x00) (is_nul b).
Proof. apply byte_eqb_spec. Qed.

Lemma cstr_no_nul (s : list byte) : ~ In x00 (cstr s).
Proof.
  induction s as [|c s IH]; simpl; [tauto|].
  destruct (is_nul_spec c); simpl; [tauto|].
  intros [H | H]; auto.
Qed.

Lemma cstr_id (s : list byte) : ~ In x00 s -> cstr s = s.
Proof.
  induction s as [|c s IH]; simpl; intros H; [reflexivity|].
  destruct (is_nul_spec c) as [->|_]; [tauto|].
  f_equal. apply IH. tauto.
Qed.

Lemma cstr_idem (s : list byte) : cstr (cstr s) = cstr s.
Proof. apply cstr_id, cstr_no_nul. Qed.

Lemma cstr_firstn (n : nat) (s : list byte) :
  cstr (firstn n s) = firstn n (cstr s).
Proof.
  revert s; induction n as [|n IH]; intros [|c s]; simpl; try reflexivity.
  destruct (is_nul c); simpl; [reflexivity|]. now rewrite IH.
Qed.

Lemma cstr_skipn (k : nat) (s : list byte) :
  k <= strlen s -> cstr (skipn k s) = skipn k (cstr s).
Proof.
  unfold strlen. revert s; induction k as [|k IH]; intros s H; [reflexivity|].
  destruct s as [|c s]; simpl in *; [reflexivity|].
  destruct (is_nul c); simpl in *; [lia|]. apply IH. lia.
Qed.

Lemma strlen_skipn (k : nat) (s : list byte) :
  k <= strlen s -> strlen (skipn k s) = strlen s - k.
Proof.
  intros H. unfold strlen. rewrite cstr_skipn by exact H.
  now rewrite length_skipn.
Qed.

Lemma strlen_le_length (s : list byte) : strlen s <= length s.
Proof.
  unfold strlen. induction s as [|c s IH]; simpl; [lia|].
  destruct (is_nul c); simpl; lia.
Qed.

Lemma strcmp_eq_iff (a b : list byte) :
  strcmp_eq a b = true <-> cstr a = cstr b.
Proof.
  revert b; induction a as [|c1 a IH]; intros b.
  - destruct b as [|c2 b]; simpl; [tauto|].
    unfold is_nul. destruct (byte_eqb_spec x00 c2) as [<-|N].
    + simpl. tauto.
    + destruct (byte_eqb_spec c2 x00) as [->|_]; [congruence|].
      split; discriminate.
  - destruct b as [|c2 b]; cbn [strcmp_eq deref hd tl cstr].
    + destruct (byte_eqb_spec c1 x00) as [->|N].
      * simpl. tauto.
      * destruct (is_nul_spec c1); [congruence|]. split; discriminate.
    + destruct (byte_eqb_spec c1 c2) as [<-|N].
      * destruct (is_nul c1); [tauto|].
        rewrite IH. split; [congruence|]. now intros [= ->].
      * destruct (is_nul_spec c1) as [->|N1], (is_nul_spec c2) as [->|N2];
          split; congruence.
Qed.

Lemma strncmp_eq_iff (n : nat) (s p : list byte) :
  strncmp_eq s p n = true <-> firstn n (cstr s) = firstn n (cstr p).
Proof.
  revert s p; induction n as [|n IH]; intros s p; [simpl; tauto|].
  destruct s as [|c1 s], p as [|c2 p]; cbn [strncmp_eq deref hd tl cstr].
  - simpl. tauto.
  - unfold is_nul. destruct (byte_eqb_spec x00 c2) as [<-|N].
    + simpl. tauto.
    + destruct (byte_eqb_spec c2 x00) as [->|_]; [congruence|].
      split; discriminate.
  - destruct (byte_eqb_spec c1 x00) as [->|N].
    + simpl. tauto.
    + destruct (is_nul_spec c1); [congruence|]. split; discriminate.
  - destruct (byte_eqb_spec c1 c2) as [<-|N].
    + destruct (is_nul c1); [tauto|].
      rewrite IH. cbn [firstn]. split; [congruence|]. now intros [= ->].
    + destruct (is_nul_spec c1) as [->|N1], (is_nul_spec c2) as [->|N2];
        cbn [firstn]; split; congruence.
Qed.

Lemma in_dict_iff (temp : list byte) (dict : list (list byte)) :
  in_dict temp dict = true <-> exists d, In d dict /\ cstr temp = cstr d.
Proof.
  induction dict as [|d dict IH]; simpl.
  - split; [discriminate|]. now intros (? & [] & _).
  - destruct (strcmp_eq temp d) eqn:E.
    + apply strcmp_eq_iff in E. split; [|reflexivity]. intros _. eauto.
    + rewrite IH. split.
      * intros (d' & H & H'). eauto.
      * intros (d' & [<-|H] & H'); [|eauto].
        apply strcmp_eq_iff in H'. congruence.
Qed.

Lemma is_stopword_iff (token : list byte) (stopwords : list (list byte)) :
  is_stopword token stopwords = true <->
  exists sw, In sw stopwords /\ cstr token = cstr sw.
Proof.
  induction stopwords as [|d dict IH]; simpl.
  - split; [discriminate|]. now intros (? & [] & _).
  - destruct (strcmp_eq token d) eqn:E.
    + apply strcmp_eq_iff in E. split; [|reflexivity]. intros _. eauto.
    + rewrite IH. split.
      * intros (d' & H & H'). eauto.
      * intros (d' & [<-|H] & H'); [|eauto].
        apply strcmp_eq_iff in H'. congruence.
Qed.

Lemma strncpy0_substr (line : list byte) (start n : nat) :
  start <= strlen line ->
  strncpy0 (skipn start line) n = substr line start n.
Proof.
  intros H. unfold strncpy0, substr. now rewrite cstr_firstn, cstr_skipn.
Qed.

Lemma in_firstn {A} (x : A) (n : nat) (l : list A) :
  In x (firstn n l) -> In x l.
Proof. intros H. rewrite <- (firstn_skipn n l). apply in_or_app. now left. Qed.

Lemma in_skipn {A} (x : A) (n : nat) (l : list A) :
  In x (skipn n l) -> In x l.
Proof. intros H. rewrite <- (firstn_skipn n l). apply in_or_app. now right. Qed.

Lemma cstr_substr (line : list byte) (start n : nat) :
  cstr (substr line start n) = substr line start n.
Proof.
  apply cstr_id. intros H. apply (cstr_no_nul line).
  unfold substr in H. apply in_firstn in H. now apply in_skipn in H.
Qed.

Lemma length_substr (line : list byte) (start n : nat) :
  start + n <= strlen line -> length (substr line start n) = n.
Proof.
  intros H. unfold substr. rewrite length_firstn, length_skipn.
  unfold strlen in H. lia.
Qed.

End CStrFacts.

(** ** Dictionary matching *)

Section DictMatch.

Variables (line : list byte) (dict : list (list byte)) (start : nat).
Hypothesis start_in_line : start <= strlen line.

Lemma dict_match_spec (m : nat) :
  match dict_match m line dict start with
  | Some (L, temp) =>
      fits line start m L /\ temp = substr line start L /\
      member line dict start L /\
      (forall L', fits line start m L' -> member line dict start L' -> L' <= L)
  | None => forall L', fits line start m L' -> ~ member line dict start L'
  end.
Proof.
  unfold fits, member. induction m as [|m' IH].
  - simpl. intros L' [H _]. lia.
  - cbn [dict_match].
    destruct (Nat.leb_spec (start + S m') (strlen line)) as [Hle|Hgt].
    + rewrite strncpy0_substr by exact start_in_line.
      destruct (in_dict (substr line start (S m')) dict) eqn:E.
      * split; [lia|]. split; [reflexivity|]. split; [exact E|].
        intros L' [H _] _. lia.
      * destruct (dict_match m' line dict start) as [[L temp]|].
        -- destruct IH as (F & -> & M & Max).
           split; [lia|]. split; [reflexivity|]. split; [exact M|].
           intros L' [H1 H2] M'. destruct (Nat.eq_dec L' (S m')) as [->|N].
           ++ congruence.
           ++ apply Max; auto. lia.
        -- intros L' [H1 H2] M'. destruct (Nat.eq_dec L' (S m')) as [->|N].
           ++ congruence.
           ++ apply (IH L'); auto. lia.
    + destruct (dict_match m' line dict start) as [[L temp]|].
      * destruct IH as (F & -> & M & Max).
        split; [lia|]. split; [reflexivity|]. split; [exact M|].
        intros L' [H1 H2] M'. apply Max; auto. lia.
      * intros L' [H1 H2] M'. apply (IH L'); auto. lia.
Qed.

Lemma dict_match_longest (m L : nat) :
  fits line start m L -> member line dict start L ->
  (forall L', fits line start m L' -> member line dict start L' -> L' <= L) ->
  dict_match m line dict start = Some (L, substr line start L).
Proof.
  intros F M Max. pose proof (dict_match_spec m) as S.
  destruct (dict_match m line dict start) as [[L0 temp]|].
  - destruct S as (F0 & -> & M0 & Max0).
    assert (L0 = L) as -> by (apply Nat.le_antisymm; auto). reflexivity.
  - now destruct (S L F).
Qed.

Lemma dict_match_none (m : nat) :
  (forall L', fits line start m L' -> ~ member line dict start L') ->
  dict_match m line dict start = None.
Proof.
  intros No. pose proof (dict_match_spec m) as S.
  destruct (dict_match m line dict start) as [[L0 temp]|]; [|reflexivity].
  destruct S as (F0 & _ & M0 & _). now destruct (No L0 F0).
Qed.

End DictMatch.

(** ** The loop, one iteration at a time *)

Lemma segment_loop_done fuel line dict stopwords start w :
  strlen line <= start ->
  segment_loop fuel line dict stopwords start w = Some (start, w, []).
Proof.
  intros H. destruct fuel; simpl;
    destruct (Nat.ltb_spec start (strlen line)); auto; lia.
Qed.

Lemma segment_loop_step fuel line dict stopwords start w :
  start < strlen line ->
  segment_loop (S fuel) line dict stopwords start w =
  let s := segment_step line dict stopwords start in
  match segment_loop fuel line dict stopwords
          (start + consumed s) (emit_opt (emitted s) w) with
  | Some (final, w', tr) => Some (final, w', s :: tr)
  | None => None
  end.
Proof.
  intros H. cbn [segment_loop].
  destruct (Nat.ltb_spec start (strlen line)); [reflexivity | lia].
Qed.

(** ** Longest match first *)

(** C1. At a cursor position where the punctuation check fails, the
    candidate lengths are tried from 21 down to 1, those that do not fit in
    the line being skipped, and the longest one whose substring is in the
    dictionary is consumed; when none is, the fallback branch runs.  With
    a dictionary that holds "中国" and "中国人" and no stopwords, the line
    "中国人" yields the single token "中国人". *)
Theorem longest_match_wins :
  (forall line dict stopwords start,
      start < strlen line ->
      check_punctuation (skipn start line) = None ->
      let s := segment_step line dict stopwords start in
      (forall L,
          fits line start MAX_CHINESE_BYTES L -> member line dict start L ->
          (forall L', fits line start MAX_CHINESE_BYTES L' ->
                      member line dict start L' -> L' <= L) ->
          kind s = DictMatch /\ consumed s = L /\
          emitted s = if is_stopword (substr line start L) stopwords
                      then None else Some (substr line start L)) /\
      (kind s = DictMatch ->
       fits line start MAX_CHINESE_BYTES (consumed s) /\
       member line dict start (consumed s) /\
       forall L', fits line start MAX_CHINESE_BYTES L' ->
                  member line dict start L' -> L' <= consumed s) /\
      ((forall L, fits line start MAX_CHINESE_BYTES L ->
                  ~ member line dict start L) -> kind s = Fallback)) /\
  (forall dict w,
      In (bytes_of "中国") dict -> In (bytes_of "中国人") dict ->
      segment_line_in_memory (bytes_of "中国人") dict [] w =
      Some (9,
            {| seg_file := seg_file w ++ bytes_of "[中国人]" ++ [x0a];
               tbl := add_token_count (bytes_of "中国人") (tbl w) |},
            [{| pos := 0; kind := DictMatch; consumed := 9;
                emitted := Some (bytes_of "中国人") |}])).
Proof.
  split.
  - intros line dict stopwords start Hlt Hp s. subst s. unfold segment_step.
    rewrite Hp. assert (start <= strlen line) as Hle by lia.
    split; [|split].
    + intros L F M Max.
      rewrite (dict_match_longest line dict start Hle _ L F M Max). simpl. auto.
    + pose proof (dict_match_spec line dict start Hle MAX_CHINESE_BYTES) as S.
      destruct (dict_match MAX_CHINESE_BYTES line dict start) as [[L temp]|].
      * simpl. intros _. tauto.
      * simpl. discriminate.
    + intros No. now rewrite (dict_match_none line dict start Hle _ No).
  - intros dict w _ Hin. unfold segment_line_in_memory.
    set (line := bytes_of "中国人").
    assert (strlen line = 9) as Hlen by reflexivity. rewrite Hlen.
    rewrite segment_loop_step by (rewrite Hlen; lia).
    assert (segment_step line dict [] 0 =
            {| pos := 0; kind := DictMatch; consumed := 9;
               emitted := Some line |}) as ->.
    { unfold segment_step.
      replace (check_punctuation (skipn 0 line)) with (@None nat)
        by (vm_compute; reflexivity).
      assert (0 <= strlen line) as H0 by lia.
      assert (fits line 0 MAX_CHINESE_BYTES 9) as F
          by (unfold fits, MAX_CHINESE_BYTES; rewrite Hlen; lia).
      assert (member line dict 0 9) as M.
      { unfold member. apply in_dict_iff. exists line. split; [exact Hin|].
        reflexivity. }
      rewrite (dict_match_longest line dict 0 H0 _ 9 F M).
      - reflexivity.
      - intros L' [_ H] _. rewrite Hlen in H. lia. }
    cbv zeta. cbn [consumed emitted emit_opt Nat.add].
    rewrite segment_loop_done by (rewrite Hlen; lia).
    unfold emit. cbn [seg_file tbl]. rewrite <- app_assoc. reflexivity.
Qed.

(** The first iteration on "中国人": of the two candidates in the
    dictionary, the one of 9 bytes is taken. *)
Lemma longest_match_wins_witness :
  let line := bytes_of "中国人" in
  let dict := [bytes_of "中国"; bytes_of "中国人"] in
  let s := segment_step line dict [] 0 in
  member line dict 0 6 /\ member line dict 0 9 /\
  kind s = DictMatch /\ consumed s = 9 /\ emitted s = Some line.
Proof.
  intros line dict s. split; [reflexivity|]. split; [reflexivity|].
  apply (proj1 longest_match_wins line dict [] 0).
  - vm_compute. lia.
  - reflexivity.
  - split; [unfold MAX_CHINESE_BYTES; lia|]. vm_compute. lia.
  - reflexivity.
  - intros L' [_ H] _. vm_compute in H. lia.
Defined.


(** ** Progress and termination *)

Lemma check_punctuation_in_some table str n :
  check_punctuation_in table str = Some n ->
  exists p, In p table /\ bytes p = n /\
            strncmp_eq str (punct p) (bytes p) = true.
Proof.
  induction table as [|p table IH]; simpl; [discriminate|].
  destruct (strncmp_eq str (punct p) (bytes p)) eqn:E.
  - intros [= <-]. eauto.
  - intros H. destruct (IH H) as (q & Hq & Hn & Hm). eauto.
Qed.

Lemma check_punctuation_in_none table str :
  check_punctuation_in table str = None ->
  forall p, In p table -> strncmp_eq str (punct p) (bytes p) = false.
Proof.
  induction table as [|q table IH]; simpl; [tauto|].
  destruct (strncmp_eq str (punct q) (bytes q)) eqn:E; [discriminate|].
  intros H p [<-|Hp]; auto.
Qed.

Lemma punctuation_bytes_pos p : In p PUNCTUATIONS -> 1 <= bytes p <= 3.
Proof.
  assert (forallb (fun p => (1 <=? bytes p) && (bytes p <=? 3)) PUNCTUATIONS
          = true) as H by reflexivity.
  rewrite forallb_forall in H. intros Hp. specialize (H p Hp).
  apply andb_true_iff in H. destruct H as [H1 H2].
  apply Nat.leb_le in H1, H2. lia.
Qed.

Lemma check_punctuation_pos str n :
  check_punctuation str = Some n -> 1 <= n <= 3.
Proof.
  intros H. apply check_punctuation_in_some in H.
  destruct H as (p & Hp & <- & _). now apply punctuation_bytes_pos.
Qed.

Lemma utf8_len_bounds str : 1 <= get_utf8_char_len str <= 3.
Proof.
  unfold get_utf8_char_len, utf8_len_of_int.
  repeat match goal with |- context [if ?c then _ else _] => destruct c end;
    lia.
Qed.

(** What an iteration adds to the cursor, branch by branch. *)
Lemma segment_step_consumed line dict stopwords start :
  start <= strlen line ->
  let s := segment_step line dict stopwords start in
  pos s = start /\ 1 <= consumed s <= MAX_CHINESE_BYTES /\
  match kind s with
  | Punctuation => check_punctuation (skipn start line) = Some (consumed s)
  | DictMatch =>
      check_punctuation (skipn start line) = None /\
      dict_match MAX_CHINESE_BYTES line dict start =
      Some (consumed s, substr line start (consumed s))
  | Fallback =>
      check_punctuation (skipn start line) = None /\
      dict_match MAX_CHINESE_BYTES line dict start = None /\
      consumed s = get_utf8_char_len (skipn start line)
  end.
Proof.
  intros Hle. unfold segment_step, MAX_CHINESE_BYTES.
  destruct (check_punctuation (skipn start line)) as [n|] eqn:Hp.
  - simpl. apply check_punctuation_pos in Hp. repeat split; lia.
  - pose proof (dict_match_spec line dict start Hle 21) as S.
    destruct (dict_match 21 line dict start) as [[L temp]|].
    + simpl. destruct S as ([F1 F2] & -> & _). repeat split; lia.
    + simpl. pose proof (utf8_len_bounds (skipn start line)).
      repeat split; lia.
Qed.

Lemma segment_loop_terminates fuel line dict stopwords :
  forall start w,
    strlen line - start <= fuel ->
    exists final w' tr,
      segment_loop fuel line dict stopwords start w = Some (final, w', tr) /\
      length tr <= strlen line - start /\
      strlen line <= final /\ start <= final /\
      chained start tr final.
Proof.
  induction fuel as [|fuel IH]; intros start w Hf.
  - exists start, w, []. rewrite segment_loop_done by lia.
    simpl. repeat split; auto; lia.
  - destruct (Nat.le_gt_cases (strlen line) start) as [Hge|Hlt].
    + exists start, w, []. rewrite segment_loop_done by lia.
      simpl. repeat split; auto; lia.
    + rewrite segment_loop_step by exact Hlt. cbv zeta.
      assert (start <= strlen line) as Hle by lia.
      destruct (segment_step_consumed line dict stopwords start Hle)
        as (Hpos & Hc & _).
      set (s := segment_step line dict stopwords start) in *.
      destruct (IH (start + consumed s) (emit_opt (emitted s) w))
        as (final & w' & tr & -> & Hlen & Hfin & Hmono & Hch); [lia|].
      exists final, w', (s :: tr). simpl. repeat split; auto; lia.
Qed.

(** More fuel does not change a finished run. *)
Lemma segment_loop_more_fuel fuel extra line dict stopwords :
  forall start w r,
    segment_loop fuel line dict stopwords start w = Some r ->
    segment_loop (fuel + extra) line dict stopwords start w = Some r.
Proof.
  induction fuel as [|fuel IH]; intros start w r H.
  - destruct (Nat.le_gt_cases (strlen line) start) as [Hge|Hlt].
    + rewrite segment_loop_done in * by exact Hge. exact H.
    + simpl in H. destruct (Nat.ltb_spec start (strlen line)); [discriminate|lia].
  - destruct (Nat.le_gt_cases (strlen line) start) as [Hge|Hlt].
    + rewrite segment_loop_done in * by exact Hge. exact H.
    + cbn [Nat.add]. rewrite segment_loop_step in * by exact Hlt.
      cbv zeta in *.
      destruct (segment_loop fuel line dict stopwords _ _) as [[[f w'] tr]|] eqn:E;
        [|discriminate].
      now rewrite (IH _ _ _ E).
Qed.

(** The tokenizer returns on every line. *)
Lemma segment_line_total line dict stopwords w :
  exists final w' tr,
    segment_line_in_memory line dict stopwords w = Some (final, w', tr) /\
    length tr <= strlen line /\ strlen line <= final /\
    chained 0 tr final.
Proof.
  destruct (segment_loop_terminates (strlen line) line dict stopwords 0 w)
    as (final & w' & tr & E & Hlen & Hfin & _ & Hch); [lia|].
  unfold segment_line_in_memory. rewrite E.
  eexists _, _, _. split; [reflexivity|]. repeat split; auto; lia.
Qed.

(** C2. Each iteration of the tokenizer loop moves the cursor forward, by
    the punctuation match length, the dictionary match length or the
    fallback codepoint length, each at least 1; so the loop ends after at
    most as many iterations as the line has bytes. *)
Theorem tokenizer_progress line dict stopwords w :
  (forall start,
      start < strlen line ->
      let s := segment_step line dict stopwords start in
      start < start + consumed s /\ 1 <= consumed s /\
      match kind s with
      | Punctuation => check_punctuation (skipn start line) = Some (consumed s)
      | DictMatch =>
          dict_match MAX_CHINESE_BYTES line dict start =
          Some (consumed s, substr line start (consumed s))
      | Fallback => consumed s = get_utf8_char_len (skipn start line)
      end) /\
  exists final w' tr,
    segment_line_in_memory line dict stopwords w = Some (final, w', tr) /\
    length tr <= strlen line /\ strlen line <= final /\
    chained 0 tr final.
Proof.
  split.
  - intros start Hlt s. subst s.
    assert (start <= strlen line) as Hle by lia.
    destruct (segment_step_consumed line dict stopwords start Hle)
      as (_ & Hc & Hk).
    split; [lia|]. split; [lia|].
    destruct (kind (segment_step line dict stopwords start)); tauto.
  - apply segment_line_total.
Qed.

(** The last iteration on "自然语言处理！": the cursor moves from 18 to the
    end of the line by the length of the punctuation match. *)
Lemma tokenizer_progress_witness :
  let line := bytes_of "自然语言处理！" in
  let dict := [bytes_of "自然"; bytes_of "语言"; bytes_of "处理"] in
  let s := segment_step line dict [] 18 in
  18 < 18 + consumed s /\ 1 <= consumed s /\
  check_punctuation (skipn 18 line) = Some (consumed s).
Proof.
  intros line dict s.
  apply (proj1 (tokenizer_progress line dict [] empty_world) 18).
  vm_compute. lia.
Defined.


(** ** Punctuation before the dictionary *)

(** C4. Where the punctuation classifier matches, the iteration advances
    by the matched length and writes nothing, whatever the dictionary
    holds; with a dictionary that has "，" as an entry, the line "，" leaves
    the segmented file with its newline only and the frequency table as it
    was. *)
Theorem punctuation_has_priority :
  (forall line dict stopwords start n w,
      check_punctuation (skipn start line) = Some n ->
      let s := segment_step line dict stopwords start in
      s = {| pos := start; kind := Punctuation; consumed := n;
             emitted := None |} /\
      emit_opt (emitted s) w = w) /\
  (forall dict stopwords w,
      In (bytes_of "，") dict ->
      member (bytes_of "，") dict 0 3 /\
      segment_line_in_memory (bytes_of "，") dict stopwords w =
      Some (3, {| seg_file := seg_file w ++ [x0a]; tbl := tbl w |},
            [{| pos := 0; kind := Punctuation; consumed := 3;
                emitted := None |}])).
Proof.
  split.
  - intros line dict stopwords start n w Hp s. subst s.
    unfold segment_step. rewrite Hp. split; reflexivity.
  - intros dict stopwords w Hin. split.
    + apply in_dict_iff. exists (bytes_of "，"). split; [exact Hin|reflexivity].
    + unfold segment_line_in_memory.
      set (line := bytes_of "，").
      assert (strlen line = 3) as Hlen by reflexivity. rewrite Hlen.
      rewrite segment_loop_step by (rewrite Hlen; lia).
      assert (segment_step line dict stopwords 0 =
              {| pos := 0; kind := Punctuation; consumed := 3;
                 emitted := None |}) as ->.
      { unfold segment_step.
        replace (check_punctuation (skipn 0 line)) with (Some 3)
          by (vm_compute; reflexivity).
        reflexivity. }
      cbv zeta. cbn [consumed emitted emit_opt Nat.add].
      rewrite segment_loop_done by (rewrite Hlen; lia). reflexivity.
Qed.

(** The iteration on the line "，" with "，" in the dictionary. *)
Lemma punctuation_has_priority_witness :
  let line := bytes_of "，" in
  let dict := [bytes_of "，"] in
  let s := segment_step line dict [] 0 in
  member line dict 0 3 /\
  s = {| pos := 0; kind := Punctuation; consumed := 3; emitted := None |} /\
  emit_opt (emitted s) empty_world = empty_world.
Proof.
  intros line dict s. split; [reflexivity|].
  apply (proj1 punctuation_has_priority line dict [] 0 3 empty_world).
  reflexivity.
Defined.


(** ** Stopwords *)

(** C5. When the longest dictionary match at the cursor is a stopword, the
    iteration writes nothing, leaves the segmented file and the frequency
    table as they were, and still advances the cursor by the length of the
    match; with the dictionary {"的"} and the stopwords {"的"}, the line
    "的" yields no token and the bytes consumed are the three of the
    line. *)
Theorem stopword_match_is_dropped :
  (forall line dict stopwords start L w,
      start < strlen line ->
      check_punctuation (skipn start line) = None ->
      fits line start MAX_CHINESE_BYTES L -> member line dict start L ->
      (forall L', fits line start MAX_CHINESE_BYTES L' ->
                  member line dict start L' -> L' <= L) ->
      is_stopword (substr line start L) stopwords = true ->
      let s := segment_step line dict stopwords start in
      s = {| pos := start; kind := DictMatch; consumed := L;
             emitted := None |} /\
      emit_opt (emitted s) w = w) /\
  (forall w,
      segment_line_in_memory (bytes_of "的") [bytes_of "的"] [bytes_of "的"] w =
      Some (3, {| seg_file := seg_file w ++ [x0a]; tbl := tbl w |},
            [{| pos := 0; kind := DictMatch; consumed := 3;
                emitted := None |}]) /\
      strlen (bytes_of "的") = 3).
Proof.
  split.
  - intros line dict stopwords start L w Hlt Hp F M Max Hs s. subst s.
    unfold segment_step. rewrite Hp.
    rewrite (dict_match_longest line dict start (Nat.lt_le_incl _ _ Hlt)
               _ L F M Max).
    rewrite Hs. split; reflexivity.
  - intros w. split; reflexivity.
Qed.

(** The iteration at "的" in "我的": the match of 3 bytes is a stopword. *)
Lemma stopword_match_is_dropped_witness :
  let line := bytes_of "我的" in
  let dict := [bytes_of "的"] in
  let s := segment_step line dict dict 3 in
  s = {| pos := 3; kind := DictMatch; consumed := 3; emitted := None |} /\
  emit_opt (emitted s) empty_world = empty_world.
Proof.
  intros line dict s.
  apply (proj1 stopword_match_is_dropped line dict dict 3 3 empty_world).
  - vm_compute. lia.
  - reflexivity.
  - split; [unfold MAX_CHINESE_BYTES; lia|]. vm_compute. lia.
  - reflexivity.
  - intros L' [_ H] _. vm_compute in H. lia.
  - reflexivity.
Defined.


(** ** Frequency table *)

Lemma wrap_int_small z : (- 2 ^ 31 <= z <= INT_MAX)%Z -> wrap_int z = z.
Proof.
  unfold wrap_int, INT_MAX. intros H. rewrite Z.mod_small; lia.
Qed.

Lemma wrap_size_small z : (0 <= z < SIZE_MOD)%Z -> wrap_size z = z.
Proof. unfold wrap_size. intros H. now apply Z.mod_small. Qed.

Lemma strcmp_eq_cstr_l a b : strcmp_eq (cstr a) b = strcmp_eq a b.
Proof.
  destruct (strcmp_eq a b) eqn:E.
  - apply strcmp_eq_iff. rewrite cstr_idem. now apply strcmp_eq_iff.
  - destruct (strcmp_eq (cstr a) b) eqn:E'; [|reflexivity].
    apply strcmp_eq_iff in E'. rewrite cstr_idem in E'.
    apply strcmp_eq_iff in E'. congruence.
Qed.

Lemma strcmp_eq_other a b c :
  cstr b <> cstr c -> strcmp_eq a b = true -> strcmp_eq a c = false.
Proof.
  intros N H. apply strcmp_eq_iff in H.
  destruct (strcmp_eq a c) eqn:E; [|reflexivity].
  apply strcmp_eq_iff in E. congruence.
Qed.

Lemma bump_spec token l :
  match bump token l with
  | Some l' =>
      has_word token l = true /\
      count_of token l' = wrap_int (count_of token l + 1) /\
      map word l' = map word l /\
      (forall other, cstr other <> cstr token ->
                     count_of other l' = count_of other l)
  | None => has_word token l = false /\ count_of token l = 0%Z
  end.
Proof.
  induction l as [|e l IH]; simpl; [auto|].
  destruct (strcmp_eq (word e) token) eqn:E.
  - simpl. rewrite E. repeat split; auto.
    intros other N. now rewrite (strcmp_eq_other (word e) token other) by auto.
  - destruct (bump token l) as [l'|].
    + destruct IH as (H1 & H2 & H3 & H4). simpl. rewrite E.
      repeat split; auto; [congruence|].
      intros other N. now rewrite H4.
    + exact IH.
Qed.

Lemma count_of_app token l e :
  count_of token (l ++ [e]) =
  if has_word token l then count_of token l
  else if strcmp_eq (word e) token then count e else 0%Z.
Proof.
  induction l as [|x l IH]; simpl; [reflexivity|].
  destruct (strcmp_eq (word x) token); auto.
Qed.

Lemma has_word_count_of_absent token l :
  has_word token l = false -> count_of token l = 0%Z.
Proof.
  induction l as [|x l IH]; simpl; [reflexivity|].
  destruct (strcmp_eq (word x) token); [discriminate|auto].
Qed.

(** One call, on the count of the recorded token. *)
Lemma add_token_count_same token g :
  (0 <= count_of token (g_word_counts g) < INT_MAX)%Z ->
  count_of token (g_word_counts (add_token_count token g)) =
  (count_of token (g_word_counts g) + 1)%Z.
Proof.
  intros R. unfold add_token_count.
  pose proof (bump_spec token (g_word_counts g)) as B.
  destruct (bump token (g_word_counts g)) as [l'|]; cbn [g_word_counts].
  - destruct B as (_ & -> & _). apply wrap_int_small. unfold INT_MAX in *. lia.
  - destruct B as (Hw & ->). rewrite count_of_app, Hw. cbn [word count].
    rewrite strcmp_eq_cstr_l.
    now replace (strcmp_eq token token) with true
      by (symmetry; now apply strcmp_eq_iff).
Qed.

Lemma add_token_count_total token g :
  g_word_count (add_token_count token g) = wrap_size (g_word_count g + 1).
Proof.
  unfold add_token_count. now destruct (bump token (g_word_counts g)).
Qed.

Lemma record_times_spec n token g :
  (0 <= count_of token (g_word_counts g))%Z ->
  (count_of token (g_word_counts g) + Z.of_nat n <= INT_MAX)%Z ->
  (0 <= g_word_count g)%Z ->
  (g_word_count g + Z.of_nat n < SIZE_MOD)%Z ->
  count_of token (g_word_counts (record_times n token g)) =
  (count_of token (g_word_counts g) + Z.of_nat n)%Z /\
  g_word_count (record_times n token g) = (g_word_count g + Z.of_nat n)%Z.
Proof.
  revert g; induction n as [|n IH]; intros g H1 H2 H3 H4.
  - simpl. split; lia.
  - cbn [record_times].
    assert (count_of token (g_word_counts (add_token_count token g)) =
            (count_of token (g_word_counts g) + 1)%Z) as Hc
        by (apply add_token_count_same; lia).
    assert (g_word_count (add_token_count token g) = (g_word_count g + 1)%Z)
      as Ht by (rewrite add_token_count_total; apply wrap_size_small; lia).
    destruct (IH (add_token_count token g)) as [E1 E2]; lia.
Qed.

(** C7. A call of [add_token_count] increments the count of a token the
    table has, leaving the other counts and the entries in place, and
    appends a token the table does not have with count 1; [g_word_count]
    counts every call.  From any table, five calls with the same token raise
    its count by 5 and [g_word_count] by 5 (within the range of [int] and of
    [size_t]). *)
Theorem record_increments_and_counts_calls :
  (forall token g,
      has_word token (g_word_counts g) = true ->
      let g' := add_token_count token g in
      count_of token (g_word_counts g') =
      wrap_int (count_of token (g_word_counts g) + 1) /\
      map word (g_word_counts g') = map word (g_word_counts g) /\
      (forall other, cstr other <> cstr token ->
                     count_of other (g_word_counts g') =
                     count_of other (g_word_counts g))) /\
  (forall token g,
      has_word token (g_word_counts g) = false ->
      let g' := add_token_count token g in
      g_word_counts g' =
      g_word_counts g ++ [{| word := cstr token; count := 1 |}] /\
      count_of token (g_word_counts g') = 1%Z) /\
  (forall token g,
      g_word_count (add_token_count token g) = wrap_size (g_word_count g + 1)) /\
  (forall token g,
      (0 <= count_of token (g_word_counts g))%Z ->
      (count_of token (g_word_counts g) + 5 <= INT_MAX)%Z ->
      (0 <= g_word_count g)%Z ->
      (g_word_count g + 5 < SIZE_MOD)%Z ->
      let g5 := record_times 5 token g in
      count_of token (g_word_counts g5) =
      (count_of token (g_word_counts g) + 5)%Z /\
      g_word_count g5 = (g_word_count g + 5)%Z).
Proof.
  split; [|split; [|split]].
  - intros token g Hw g'. subst g'. unfold add_token_count.
    pose proof (bump_spec token (g_word_counts g)) as B.
    destruct (bump token (g_word_counts g)) as [l'|]; cbn [g_word_counts].
    + tauto.
    + destruct B as [B _]. congruence.
  - intros token g Hw g'. subst g'. unfold add_token_count.
    pose proof (bump_spec token (g_word_counts g)) as B.
    destruct (bump token (g_word_counts g)) as [l'|]; cbn [g_word_counts].
    + destruct B as [B _]. congruence.
    + split; [reflexivity|]. rewrite count_of_app, Hw. cbn [word count].
      rewrite strcmp_eq_cstr_l.
      now replace (strcmp_eq token token) with true
        by (symmetry; now apply strcmp_eq_iff).
  - apply add_token_count_total.
  - intros token g H1 H2 H3 H4 g5. subst g5.
    apply (record_times_spec 5 token g); simpl; lia.
Qed.

(** The five calls of C7 on the empty table and on a table that has the
    token already. *)
Lemma record_increments_and_counts_calls_witness :
  let tok := bytes_of "的" in
  let g := {| g_word_counts := [{| word := bytes_of "了"; count := 2 |};
                                {| word := tok; count := 7 |}];
              g_word_capacity := 10; g_word_count := 9 |} in
  (count_of tok (g_word_counts (record_times 5 tok g)) = 12%Z /\
   g_word_count (record_times 5 tok g) = 14%Z) /\
  (count_of tok (g_word_counts (record_times 5 tok empty_globals)) = 5%Z /\
   g_word_count (record_times 5 tok empty_globals) = 5%Z).
Proof.
  intros tok g. split.
  - apply (proj2 (proj2 (proj2 record_increments_and_counts_calls)) tok g);
      vm_compute; congruence.
  - apply (proj2 (proj2 (proj2 record_increments_and_counts_calls))
             tok empty_globals); vm_compute; congruence.
Defined.

(** ** Report order *)

Lemma cmp_wordcount_in_range a b :
  (0 <= count a <= INT_MAX)%Z -> (0 <= count b <= INT_MAX)%Z ->
  cmp_wordcount a b = (count b - count a)%Z.
Proof.
  intros Ha Hb. unfold cmp_wordcount. apply wrap_int_small.
  unfold INT_MAX in *. lia.
Qed.

Lemma sorted_by_count l :
  counts_in_range l ->
  Sorted (fun x y => (cmp_wordcount x y <= 0)%Z) l ->
  StronglySorted (fun x y => (count y <= count x)%Z) l.
Proof.
  intros R S. apply Sorted_StronglySorted.
  - intros x y z Hxy Hyz. lia.
  - induction S as [|a l S IH H]; constructor.
    + apply IH. now inversion R.
    + inversion R as [|? ? Ra Rl]; subst.
      destruct H as [|b l H]; constructor.
      inversion Rl; subst. rewrite cmp_wordcount_in_range in H by auto. lia.
Qed.

Lemma strongly_sorted_nth_error {A} (R : A -> A -> Prop) l :
  StronglySorted R l ->
  forall i j a b,
    i < j -> nth_error l i = Some a -> nth_error l j = Some b -> R a b.
Proof.
  induction 1 as [|x l S IH F]; intros i j a b Hij Ha Hb.
  - destruct i; discriminate.
  - destruct j as [|j]; [lia|]. simpl in Hb. destruct i as [|i].
    + simpl in Ha. injection Ha as <-. rewrite Forall_forall in F.
      apply F. eapply nth_error_In. exact Hb.
    + simpl in Ha. apply (IH i j); auto. lia.
Qed.

Lemma nth_error_firstn_some {A} n (l : list A) i a :
  nth_error (firstn n l) i = Some a -> nth_error l i = Some a.
Proof.
  revert l i; induction n as [|n IH]; intros l i; simpl.
  - destruct i; discriminate.
  - destruct l as [|x l]; [destruct i; discriminate|].
    destruct i as [|i]; simpl; auto.
Qed.

(** C9. The report printed by [main] is in non-increasing order of count:
    of two reported entries the earlier has a count at least that of the
    later.  The order comes from the counts alone: the comparison does not
    look at the words and is 0 on equal counts. *)
Theorem report_is_sorted_by_count g report :
  counts_in_range (g_word_counts g) ->
  main_report g report ->
  (forall i j a b,
      i < j -> nth_error report i = Some a -> nth_error report j = Some b ->
      (count b <= count a)%Z) /\
  length report = Nat.min 10 (length (g_word_counts g)) /\
  (forall e, In e report -> In e (g_word_counts g)) /\
  (forall a b a' b',
      count a = count a' -> count b = count b' ->
      cmp_wordcount a b = cmp_wordcount a' b') /\
  (forall a b, count a = count b -> cmp_wordcount a b = 0%Z).
Proof.
  intros R (sorted & (P & S) & ->).
  assert (counts_in_range sorted) as R'.
  { unfold counts_in_range in *. rewrite Forall_forall in *.
    intros e He. apply R. eapply Permutation_in; [symmetry; exact P|exact He]. }
  pose proof (sorted_by_count sorted R' S) as SS.
  split; [|split; [|split; [|split]]].
  - intros i j a b Hij Ha Hb. apply nth_error_firstn_some in Ha, Hb.
    exact (strongly_sorted_nth_error _ sorted SS i j a b Hij Ha Hb).
  - rewrite length_firstn. now rewrite (Permutation_length P).
  - intros e He. apply in_firstn in He.
    eapply Permutation_in; [symmetry; exact P|exact He].
  - intros a b a' b' Ha Hb. unfold cmp_wordcount. now rewrite Ha, Hb.
  - intros a b H. unfold cmp_wordcount. rewrite H, Z.sub_diag. reflexivity.
Qed.

(** A table of three entries with a tie, and one order [qsort] may leave. *)
Lemma report_is_sorted_by_count_witness :
  let a := {| word := bytes_of "的"; count := 2 |} in
  let b := {| word := bytes_of "中国"; count := 5 |} in
  let c := {| word := bytes_of "人"; count := 5 |} in
  let g := {| g_word_counts := [a; b; c]; g_word_capacity := 10;
              g_word_count := 12 |} in
  counts_in_range (g_word_counts g) /\
  main_report g [c; b; a] /\
  (forall i j x y,
      i < j -> nth_error [c; b; a] i = Some x ->
      nth_error [c; b; a] j = Some y -> (count y <= count x)%Z).
Proof.
  intros a b c g.
  assert (counts_in_range (g_word_counts g)) as R.
  { repeat constructor; vm_compute; congruence. }
  assert (main_report g [c; b; a]) as M.
  { exists [c; b; a]. split; [split|reflexivity].
    - simpl. apply Permutation_trans with (l' := [b; a; c]).
      + apply perm_swap.
      + apply Permutation_trans with (l' := [b; c; a]).
        * apply perm_skip, perm_swap.
        * apply perm_swap.
    - repeat constructor; vm_compute; congruence. }
  split; [exact R|]. split; [exact M|].
  exact (proj1 (report_is_sorted_by_count g [c; b; a] R M)).
Defined.

(** ** The entries of the punctuation table *)

Lemma punctuation_entries p :
  In p PUNCTUATIONS ->
  (bytes p <= length (punct p) /\ cstr (punct p) = punct p /\
   well_formed (compared p)) \/
  (bytes p = 3 /\ punct p = [x27]).
Proof.
  assert (forallb (fun p => prefix_entry p || short_apostrophe_entry p)
                  PUNCTUATIONS = true) as H by reflexivity.
  rewrite forallb_forall in H. intros Hp. specialize (H p Hp).
  apply orb_true_iff in H. destruct H as [H|H].
  - left. apply andb_true_iff in H. destruct H as [H H3].
    apply andb_true_iff in H. destruct H as [H1 H2].
    apply Nat.leb_le in H1. split; [exact H1|]. split; [|exact H3].
    apply cstr_id. intros Hin. apply negb_true_iff in H2.
    assert (existsb is_nul (punct p) = true) as E.
    { apply existsb_exists. exists x00. split; [exact Hin|reflexivity]. }
    congruence.
  - right. apply andb_true_iff in H. destruct H as [H1 H2].
    apply Nat.eqb_eq in H1. split; [exact H1|].
    destruct (punct p) as [|q [|? ?]]; try discriminate.
    apply Byte.byte_dec_bl in H2. now subst.
Qed.

(** A match of an entry whose pattern has the bytes its length declares:
    the text starts with the compared bytes of the pattern. *)
Lemma prefix_entry_match str p :
  bytes p <= length (punct p) -> cstr (punct p) = punct p ->
  (strncmp_eq str (punct p) (bytes p) = true <->
   firstn (bytes p) (cstr str) = compared p).
Proof.
  intros Hl Hc. rewrite strncmp_eq_iff, Hc. unfold compared. tauto.
Qed.

Lemma length_compared p :
  bytes p <= length (punct p) -> length (compared p) = bytes p.
Proof. intros H. unfold compared. rewrite length_firstn. lia. Qed.

(** A match of an entry of length 3 whose pattern is one byte: the text is
    that byte alone. *)
Lemma short_entry_match str q :
  q <> x00 ->
  (strncmp_eq str [q] 3 = true <-> cstr str = [q]).
Proof.
  intros Hq. rewrite strncmp_eq_iff.
  assert (cstr [q] = [q]) as -> by (apply cstr_id; simpl; intuition congruence).
  simpl. destruct (cstr str) as [|a [|b [|c l]]]; simpl; split; congruence.
Qed.

(** ** The second punctuation check *)

Lemma cstr_cons_inv s q l : cstr s = q :: l -> deref s = q.
Proof.
  destruct s as [|c s]; simpl; [discriminate|].
  destruct (is_nul c); [discriminate|]. now intros [= -> _].
Qed.

Lemma cstr_fallback_temp line start :
  cstr (fallback_temp line start) =
  firstn (get_utf8_char_len (skipn start line)) (cstr (skipn start line)).
Proof. unfold fallback_temp, strncpy0. now rewrite cstr_idem, cstr_firstn. Qed.

(** Away from an apostrophe, a classifier that rejects the text at the
    cursor rejects the codepoint extracted from it. *)
Lemma recheck_fails line start :
  check_punctuation (skipn start line) = None ->
  deref (skipn start line) <> x27 ->
  check_punctuation (fallback_temp line start) = None.
Proof.
  intros Htop Hq.
  destruct (check_punctuation (fallback_temp line start)) as [n|] eqn:E;
    [exfalso|reflexivity].
  apply check_punctuation_in_some in E. destruct E as (p & Hp & _ & Hm).
  pose proof (check_punctuation_in_none _ _ Htop) as Hnone.
  set (k := get_utf8_char_len (skipn start line)) in *.
  set (cs := cstr (skipn start line)) in *.
  destruct (punctuation_entries p Hp) as [(Hl & Hc & _)|[Hb Hs]].
  - apply (prefix_entry_match _ p Hl Hc) in Hm.
    rewrite cstr_fallback_temp, firstn_firstn in Hm. fold k cs in Hm.
    assert (Nat.min (bytes p) k = bytes p) as Hmin.
    { apply (f_equal (@length byte)) in Hm.
      rewrite length_firstn, length_compared in Hm by exact Hl. lia. }
    rewrite Hmin in Hm. apply (prefix_entry_match _ p Hl Hc) in Hm.
    rewrite (Hnone p Hp) in Hm. discriminate.
  - rewrite Hb, Hs in Hm.
    apply (short_entry_match _ x27) in Hm; [|discriminate].
    rewrite cstr_fallback_temp in Hm. fold k cs in Hm.
    assert (exists l, cs = x27 :: l) as [l Hcs].
    { destruct cs as [|c l]; [destruct k; discriminate|].
      destruct k; [discriminate|]. simpl in Hm. injection Hm as -> _. eauto. }
    now rewrite (cstr_cons_inv _ _ _ Hcs) in Hq.
Qed.

Lemma apostrophe_entry : In {| punct := [x27]; bytes := 3 |} PUNCTUATIONS.
Proof. unfold PUNCTUATIONS. simpl. tauto. Qed.

(** Where the check at the top of the loop failed, the second check
    succeeds on one text only: an apostrophe that is not the last byte of
    the line. *)
Lemma recheck_succeeds_iff line start :
  check_punctuation (skipn start line) = None ->
  (check_punctuation (fallback_temp line start) <> None <->
   exists b l, cstr (skipn start line) = x27 :: b :: l).
Proof.
  intros Htop. pose proof (check_punctuation_in_none _ _ Htop) as Hnone. split.
  - intros Hre.
    destruct (Byte.byte_eq_dec (deref (skipn start line)) x27) as [Hq|Hq];
      [|now rewrite (recheck_fails line start Htop Hq) in Hre].
    destruct (skipn start line) as [|c s'] eqn:Es; [discriminate Hq|].
    cbn [deref hd] in Hq. subst c.
    destruct (cstr s') as [|b l] eqn:Ec.
    + exfalso. pose proof (Hnone _ apostrophe_entry) as Hm.
      cbn [punct bytes] in Hm.
      assert (strncmp_eq (x27 :: s') [x27] 3 = true) as Hyes.
      { apply short_entry_match; [discriminate|]. simpl. now rewrite Ec. }
      congruence.
    + exists b, l. simpl. now rewrite Ec.
  - intros (b & l & Hcs) Hre.
    pose proof (check_punctuation_in_none _ _ Hre _ apostrophe_entry) as Hm.
    cbn [punct bytes] in Hm.
    assert (strncmp_eq (fallback_temp line start) [x27] 3 = true) as Hyes.
    { apply short_entry_match; [discriminate|].
      rewrite cstr_fallback_temp, Hcs.
      unfold get_utf8_char_len. now rewrite (cstr_cons_inv _ _ _ Hcs). }
    congruence.
Qed.

(** With a table in which no entry declares more bytes than its pattern
    has, the second check never succeeds where the first failed. *)
Section ExactTable.

Variable table : list PunctInfo.
Hypothesis table_exact :
  forall p, In p table ->
            bytes p <= length (punct p) /\ cstr (punct p) = punct p.

Lemma recheck_fails_exact_table line start :
  check_punctuation_in table (skipn start line) = None ->
  check_punctuation_in table (fallback_temp line start) = None.
Proof.
  intros Htop.
  destruct (check_punctuation_in table (fallback_temp line start)) as [n|] eqn:E;
    [exfalso|reflexivity].
  apply check_punctuation_in_some in E. destruct E as (p & Hp & _ & Hm).
  pose proof (check_punctuation_in_none _ _ Htop p Hp) as Hnone.
  destruct (table_exact p Hp) as [Hl Hc].
  apply (prefix_entry_match _ p Hl Hc) in Hm.
  rewrite cstr_fallback_temp, firstn_firstn in Hm.
  assert (Nat.min (bytes p) (get_utf8_char_len (skipn start line)) = bytes p)
    as Hmin.
  { apply (f_equal (@length byte)) in Hm.
    rewrite length_firstn, length_compared in Hm by exact Hl. lia. }
  rewrite Hmin in Hm. apply (prefix_entry_match _ p Hl Hc) in Hm.
  congruence.
Qed.

End ExactTable.

Lemma deref_in_text line start :
  start < strlen line -> In (deref (skipn start line)) (cstr line).
Proof.
  unfold strlen. revert line; induction start as [|start IH]; intros line H.
  - destruct line as [|c l]; simpl in *; [lia|].
    destruct (is_nul c); simpl in *; [lia|auto].
  - destruct line as [|c l]; simpl in *; [lia|].
    destruct (is_nul c); simpl in *; [lia|]. right. apply IH. lia.
Qed.

Lemma segment_step_without_recheck line dict stopwords start :
  deref (skipn start line) <> x27 ->
  segment_step line dict stopwords start =
  segment_step_no_recheck line dict stopwords start.
Proof.
  intros Hq. unfold segment_step, segment_step_no_recheck.
  destruct (check_punctuation (skipn start line)) eqn:Htop; [reflexivity|].
  destruct (dict_match MAX_CHINESE_BYTES line dict start) as [[L temp]|];
    [reflexivity|].
  pose proof (recheck_fails line start Htop Hq) as R.
  unfold fallback_temp in R. rewrite R. reflexivity.
Qed.

Lemma segment_loop_without_recheck fuel line dict stopwords :
  ~ In x27 (cstr line) ->
  forall start w,
    segment_loop fuel line dict stopwords start w =
    segment_loop_no_recheck fuel line dict stopwords start w.
Proof.
  intros Hno. induction fuel as [|fuel IH]; intros start w; simpl.
  - reflexivity.
  - destruct (Nat.ltb_spec start (strlen line)) as [Hlt|]; [|reflexivity].
    rewrite segment_step_without_recheck.
    + now rewrite IH.
    + intros Hq. apply Hno. rewrite <- Hq. now apply deref_in_text.
Qed.

(** X21. The second check away from the apostrophe.  At a position that does
    not hold an ASCII apostrophe, where the punctuation check at the top of
    the loop failed and no dictionary length matched, the punctuation check
    on the extracted codepoint fails too, and the codepoint is written
    exactly when it is not a stopword; on a line without an ASCII
    apostrophe the tokenizer and the variant without the second check
    produce the same result. *)
Theorem recheck_redundant_away_from_apostrophe :
  (forall line dict stopwords start,
      start < strlen line ->
      check_punctuation (skipn start line) = None ->
      dict_match MAX_CHINESE_BYTES line dict start = None ->
      deref (skipn start line) <> x27 ->
      let s := segment_step line dict stopwords start in
      check_punctuation (fallback_temp line start) = None /\
      kind s = Fallback /\
      emitted s = if is_stopword (fallback_temp line start) stopwords
                  then None else Some (fallback_temp line start)) /\
  (forall line dict stopwords w,
      ~ In x27 (cstr line) ->
      segment_line_in_memory line dict stopwords w =
      segment_line_no_recheck line dict stopwords w).
Proof.
  split.
  - intros line dict stopwords start _ Htop Hd Hq s. subst s.
    pose proof (recheck_fails line start Htop Hq) as R.
    split; [exact R|]. unfold segment_step. rewrite Htop, Hd.
    unfold fallback_temp in *. rewrite R. cbn [kind emitted is_some negb andb].
    split; [reflexivity|].
    now destruct (is_stopword _ stopwords).
  - intros line dict stopwords w Hno.
    unfold segment_line_in_memory, segment_line_no_recheck.
    now rewrite segment_loop_without_recheck.
Qed.

(** The line "中国人a" with "人" as a stopword: the two fallback codepoints
    pass the second check, and the two tokenizers agree. *)
Lemma recheck_redundant_away_from_apostrophe_witness :
  let line := bytes_of "中国人a" in
  let dict := [bytes_of "中国"] in
  let stopwords := [bytes_of "人"] in
  (check_punctuation (fallback_temp line 6) = None /\
   kind (segment_step line dict stopwords 6) = Fallback /\
   emitted (segment_step line dict stopwords 6) = None) /\
  (check_punctuation (fallback_temp line 9) = None /\
   kind (segment_step line dict stopwords 9) = Fallback /\
   emitted (segment_step line dict stopwords 9) = Some (bytes_of "a")) /\
  segment_line_in_memory line dict stopwords empty_world =
  segment_line_no_recheck line dict stopwords empty_world.
Proof.
  intros line dict stopwords. split; [|split].
  - apply (proj1 recheck_redundant_away_from_apostrophe line dict stopwords 6);
      vm_compute; solve [reflexivity | discriminate | lia].
  - apply (proj1 recheck_redundant_away_from_apostrophe line dict stopwords 9);
      vm_compute; solve [reflexivity | discriminate | lia].
  - apply (proj2 recheck_redundant_away_from_apostrophe).
    vm_compute. intros H.
    repeat (destruct H as [H|H]; [discriminate H|]). exact H.
Defined.

(** C10 on the code.  On the line "'a" the check at the top of the loop
    rejects the text at the cursor, no dictionary length matches, and the
    check on the extracted apostrophe succeeds: the entry for the
    apostrophe pairs a pattern of one byte with the length 3, so that
    [strncmp] accepts the apostrophe alone and nothing longer.  The
    apostrophe is not a stopword and is not written; the variant without
    the second check writes it, and the two runs differ. *)
Lemma recheck_succeeds_on_apostrophe :
  let line := bytes_of "'a" in
  check_punctuation (skipn 0 line) = None /\
  dict_match MAX_CHINESE_BYTES line [] 0 = None /\
  fallback_temp line 0 = bytes_of "'" /\
  check_punctuation (fallback_temp line 0) = Some 3 /\
  is_stopword (fallback_temp line 0) [] = false /\
  emitted (segment_step line [] [] 0) = None /\
  option_map (fun r => tokens (snd r)) (segment_line_in_memory line [] [] empty_world)
  = Some [bytes_of "a"] /\
  option_map (fun r => tokens (snd r)) (segment_line_no_recheck line [] [] empty_world)
  = Some [bytes_of "'"; bytes_of "a"] /\
  segment_line_in_memory line [] [] empty_world <>
  segment_line_no_recheck line [] [] empty_world.
Proof.
  repeat split; try reflexivity. vm_compute. discriminate.
Qed.

(** ** Coverage *)

Lemma firstn_add {A} (c m : nat) (l : list A) :
  firstn (c + m) l = firstn c l ++ firstn m (skipn c l).
Proof.
  revert l; induction c as [|c IH]; intros l; [reflexivity|].
  destruct l as [|x l]; simpl; [now rewrite firstn_nil|]. now rewrite IH.
Qed.

Lemma chained_le tr : forall start final, chained start tr final -> start <= final.
Proof.
  induction tr as [|s tr IH]; simpl; intros start final H; [lia|].
  destruct H as (_ & H1 & H2). specialize (IH _ _ H2). lia.
Qed.

Lemma chained_spans line :
  forall tr start final,
    chained start tr final -> final <= strlen line ->
    Forall (fun s => pos s + consumed s <= strlen line) tr /\
    concat (map (span_bytes line) tr) =
    firstn (final - start) (skipn start (cstr line)).
Proof.
  induction tr as [|s tr IH]; intros start final H Hf.
  - simpl in H. subst. rewrite Nat.sub_diag. simpl. auto.
  - simpl in H. destruct H as (Hp & Hlt & Hch).
    destruct (IH _ _ Hch Hf) as [F E].
    pose proof (chained_le _ _ _ Hch) as Hle.
    split.
    + constructor; [lia|exact F].
    + cbn [map concat]. rewrite E. unfold span_bytes, substr. rewrite Hp.
      replace (final - start) with (consumed s + (final - (start + consumed s)))
        by lia.
      rewrite firstn_add, skipn_skipn.
      now rewrite (Nat.add_comm (consumed s) start).
Qed.

(** A run whose cursor stops at the end of the line covers the line. *)
Lemma covers_when_cursor_stops_at_end line dict stopwords w final w' tr :
  segment_line_in_memory line dict stopwords w = Some (final, w', tr) ->
  final = strlen line -> covers line tr.
Proof.
  intros Hrun ->.
  destruct (segment_line_total line dict stopwords w)
    as (f & w0 & tr0 & E & _ & _ & Hch).
  rewrite Hrun in E. injection E as <- _ <-.
  destruct (chained_spans line tr 0 (strlen line) Hch (Nat.le_refl _)) as [F E].
  split; [exact Hch|]. split; [exact F|].
  rewrite E, Nat.sub_0_r. simpl. apply firstn_all.
Qed.

(** C3 on the code.  A line that ends inside a three-byte sequence, here
    the first two bytes E4 B8 of "中": the fallback branch adds the nominal
    length 3 to the cursor, so the span of the only iteration is [0, 3) on a
    line of 2 bytes and the cursor ends at 3.  The same happens on the line
    "'", where the punctuation entry for the apostrophe has length 3.  In
    neither run do the spans cover the line. *)
Theorem span_runs_past_end_of_line :
  (let line := [xe4; xb8] in
   strlen line = 2 /\
   segment_line_in_memory line [] [] empty_world =
   Some (3,
         {| seg_file := bytes_of "[" ++ [xe4; xb8] ++ bytes_of "]" ++ [x0a];
            tbl := add_token_count [xe4; xb8] empty_globals |},
         [{| pos := 0; kind := Fallback; consumed := 3;
             emitted := Some [xe4; xb8] |}]) /\
   ~ covers line [{| pos := 0; kind := Fallback; consumed := 3;
                     emitted := Some [xe4; xb8] |}]) /\
  (let line := bytes_of "'" in
   strlen line = 1 /\
   option_map snd (segment_line_in_memory line [] [] empty_world) =
   Some [{| pos := 0; kind := Punctuation; consumed := 3; emitted := None |}] /\
   ~ covers line [{| pos := 0; kind := Punctuation; consumed := 3;
                     emitted := None |}]).
Proof.
  split; cbv zeta; (split; [reflexivity|]); (split; [reflexivity|]);
    intros (H & _); simpl in H; destruct H as (_ & _ & H); vm_compute in H;
    discriminate.
Qed.

(** ** Well-formed text *)

Lemma utf8_3_app due a b :
  utf8_3 due (a ++ b) = true -> utf8_3 due a = true -> utf8_3 0 b = true.
Proof.
  revert due; induction a as [|x a IH]; intros due; simpl.
  - intros H E. apply Nat.eqb_eq in E. now subst.
  - destruct due as [|due].
    + destruct (is_nul x); [discriminate|].
      destruct (high_bit_clear x); [apply IH|].
      destruct (is_lead2 x); [apply IH|].
      destruct (is_lead3 x); [apply IH|discriminate].
    + destruct (is_cont x); simpl; [apply IH|discriminate].
Qed.

Lemma cont_is_no_lead b :
  is_cont b = true ->
  high_bit_clear b = false /\ is_lead2 b = false /\ is_lead3 b = false.
Proof. destruct b; vm_compute; intuition congruence. Qed.

Lemma scanner_on_lead b :
  utf8_len_of_int (uchar b) =
  if high_bit_clear b then 1
  else if is_lead2 b then 2 else if is_lead3 b then 3 else 1.
Proof.
  destruct (lead_patterns_masks b) as (M1 & M2 & M3).
  unfold utf8_len_of_int. now rewrite <- M1, <- M2, <- M3.
Qed.

(** At the start of well-formed text the scanner measures a whole
    codepoint. *)
Lemma utf8_3_head s :
  utf8_3 0 s = true -> s <> [] ->
  let k := get_utf8_char_len s in
  k <= length s /\ utf8_3 0 (firstn k s) = true /\
  utf8_3 0 (skipn k s) = true /\ is_cont (deref s) = false /\ cstr (firstn k s) = firstn k s.
Proof.
  destruct s as [|b rest]; [congruence|]. intros H _.
  unfold get_utf8_char_len. cbn [deref hd]. rewrite scanner_on_lead.
  assert (is_cont b = false) as Hc.
  { destruct (is_cont b) eqn:E; [|reflexivity].
    destruct (cont_is_no_lead b E) as (E1 & E2 & E3). simpl in H.
    rewrite E1, E2, E3 in H. now destruct (is_nul b). }
  cbn [utf8_3] in H. destruct (is_nul b) eqn:E0; [discriminate|].
  destruct (high_bit_clear b) eqn:E1.
  { cbv zeta. cbn [firstn skipn length utf8_3 cstr]. rewrite E0, E1.
    repeat split; auto. lia. }
  destruct (is_lead2 b) eqn:E2.
  { destruct rest as [|c rest]; [discriminate|]. cbn [utf8_3] in H.
    apply andb_true_iff in H. destruct H as [Hcc H].
    assert (is_nul c = false) as Hn by (destruct c; try reflexivity; discriminate).
    cbv zeta. cbn [firstn skipn length utf8_3 cstr]. rewrite E0, E1, E2, Hcc, Hn.
    repeat split; auto. lia. }
  destruct (is_lead3 b) eqn:E3; [|discriminate].
  destruct rest as [|c [|d rest]]; try discriminate.
  { cbn [utf8_3] in H. apply andb_true_iff in H. destruct H as [_ H].
    discriminate. }
  cbn [utf8_3] in H. apply andb_true_iff in H. destruct H as [Hcc H].
  apply andb_true_iff in H. destruct H as [Hcd H].
  assert (is_nul c = false) as Hn by (destruct c; try reflexivity; discriminate).
  assert (is_nul d = false) as Hn' by (destruct d; try reflexivity; discriminate).
  cbv zeta. cbn [firstn skipn length utf8_3 cstr].
  rewrite E0, E1, E2, E3, Hcc, Hcd, Hn, Hn'. repeat split; auto. lia.
Qed.

Lemma skipn_cons_nth (l : list byte) i :
  i < length l -> skipn i l = nth i l x00 :: skipn (S i) l.
Proof.
  revert i; induction l as [|x l IH]; intros i H; simpl in H; [lia|].
  destruct i as [|i]; [reflexivity|]. simpl. apply IH. lia.
Qed.

(** Where the rest of the text is well formed, the index is a boundary. *)
Lemma well_formed_rest_boundary text i :
  i <= length text -> utf8_3 0 (skipn i text) = true ->
  is_char_boundary text i = true.
Proof.
  intros Hi H. unfold is_char_boundary.
  destruct (Nat.eqb_spec i (length text)) as [|N]; [now rewrite orb_true_r|].
  assert (i < length text) as Hlt by lia.
  rewrite skipn_cons_nth in H by exact Hlt.
  destruct (utf8_3_head _ H) as (_ & _ & _ & Hc & _); [discriminate|].
  cbn [deref hd] in Hc. rewrite Hc.
  destruct (Nat.ltb_spec i (length text)); [|lia].
  now rewrite orb_true_r.
Qed.

(** ** Emitted tokens *)

Lemma firstn_length_firstn {A} k (l : list A) :
  firstn (length (firstn k l)) l = firstn k l.
Proof.
  rewrite length_firstn. destruct (Nat.le_gt_cases k (length l)) as [H|H].
  - now rewrite Nat.min_l.
  - rewrite Nat.min_r by lia. now rewrite firstn_all, firstn_all2 by lia.
Qed.

(** Every token an iteration writes is a slice of the line. *)
Lemma segment_step_token_slice line dict stopwords start t :
  start < strlen line ->
  emitted (segment_step line dict stopwords start) = Some t ->
  token_is_slice line (segment_step line dict stopwords start) t.
Proof.
  intros Hlt. assert (start <= strlen line) as Hle by lia.
  destruct (segment_step_consumed line dict stopwords start Hle) as (Hp & _).
  unfold token_is_slice. rewrite Hp. clear Hp. unfold segment_step.
  destruct (check_punctuation (skipn start line)); [discriminate|].
  pose proof (dict_match_spec line dict start Hle MAX_CHINESE_BYTES) as S.
  destruct (dict_match MAX_CHINESE_BYTES line dict start) as [[L temp]|].
  - destruct S as ([F1 F2] & -> & _). cbn [emitted].
    destruct (is_stopword _ stopwords); [discriminate|]. intros [= <-].
    rewrite length_substr by exact F2. auto.
  - cbn [emitted]. rewrite strncpy0_substr by exact Hle.
    destruct (_ && _); [|discriminate]. intros [= <-].
    pose proof (utf8_len_bounds (skipn start line)) as B.
    set (k := get_utf8_char_len (skipn start line)) in *.
    unfold substr. rewrite firstn_length_firstn.
    rewrite length_firstn, length_skipn. fold (strlen line).
    unfold MAX_CHINESE_BYTES. repeat split; lia.
Qed.

(** The iterations of a run are those of [segment_step], each at a cursor
    inside the line. *)
Lemma segment_loop_trace fuel line dict stopwords :
  forall start w final w' tr,
    segment_loop fuel line dict stopwords start w = Some (final, w', tr) ->
    Forall (fun s => pos s < strlen line /\
                     s = segment_step line dict stopwords (pos s)) tr.
Proof.
  induction fuel as [|fuel IH]; intros start w final w' tr H.
  - simpl in H. destruct (start <? strlen line); [discriminate|].
    injection H as _ _ <-. constructor.
  - destruct (Nat.le_gt_cases (strlen line) start) as [Hge|Hlt].
    + rewrite segment_loop_done in H by exact Hge. injection H as _ _ <-.
      constructor.
    + rewrite segment_loop_step in H by exact Hlt. cbv zeta in H.
      destruct (segment_loop fuel line dict stopwords _ _)
        as [[[f w0] tr0]|] eqn:E; [|discriminate].
      injection H as _ _ <-. constructor; [|exact (IH _ _ _ _ _ E)].
      destruct (segment_step_consumed line dict stopwords start) as (Hp & _);
        [lia|].
      rewrite Hp. auto.
Qed.

Section WellFormedInput.

Variables (line : list byte) (dict stopwords : list (list byte)).
Hypothesis dict_well_formed : Forall (fun d => well_formed (cstr d)) dict.

(** An iteration at a cursor where the rest of the line is well formed:
    either it stays in the line, leaves a well-formed rest and writes, if
    anything, the whole codepoints of its span, or it is the last one and
    writes nothing. *)
Lemma segment_step_well_formed start :
  start < strlen line ->
  utf8_3 0 (skipn start (cstr line)) = true ->
  let s := segment_step line dict stopwords start in
  (start + consumed s <= strlen line /\
   utf8_3 0 (skipn (start + consumed s) (cstr line)) = true /\
   forall t, emitted s = Some t -> length t = consumed s /\ well_formed t) \/
  (strlen line < start + consumed s /\ emitted s = None /\
   skipn start (cstr line) = [x27]).
Proof.
  intros Hlt Hwf. assert (start <= strlen line) as Hle by lia.
  cbv zeta. unfold segment_step.
  pose proof (cstr_skipn start line Hle) as Hcs.
  destruct (check_punctuation (skipn start line)) as [n|] eqn:Hp.
  - cbn [consumed emitted]. apply check_punctuation_in_some in Hp.
    destruct Hp as (p & Hin & <- & Hm).
    destruct (punctuation_entries p Hin) as [(Hl & Hc & Hu)|[Hb Hs]].
    + left. apply (prefix_entry_match _ p Hl Hc) in Hm. rewrite Hcs in Hm.
      assert (bytes p <= strlen line - start) as Hn.
      { apply (f_equal (@length byte)) in Hm.
        rewrite length_firstn, length_skipn, length_compared in Hm
          by exact Hl.
        fold (strlen line) in Hm. lia. }
      split; [lia|]. split; [|discriminate].
      rewrite <- (firstn_skipn (bytes p) (skipn start (cstr line))) in Hwf.
      rewrite Hm in Hwf. pose proof (utf8_3_app _ _ _ Hwf Hu) as Hr.
      now rewrite skipn_skipn, Nat.add_comm in Hr.
    + right. rewrite Hb in *. rewrite Hs in Hm.
      apply (short_entry_match _ x27) in Hm; [|discriminate].
      rewrite Hcs in Hm. split; [|split; [reflexivity|exact Hm]].
      apply (f_equal (@length byte)) in Hm.
      rewrite length_skipn in Hm. fold (strlen line) in Hm. simpl in Hm. lia.
  - pose proof (dict_match_spec line dict start Hle MAX_CHINESE_BYTES) as S.
    destruct (dict_match MAX_CHINESE_BYTES line dict start) as [[L temp]|].
    + left. destruct S as ([F1 F2] & -> & M & _). cbn [consumed emitted].
      apply in_dict_iff in M. destruct M as (d & Hd & E).
      rewrite cstr_substr in E.
      assert (well_formed (substr line start L)) as Hu.
      { rewrite E. rewrite Forall_forall in dict_well_formed.
        now apply dict_well_formed. }
      split; [exact F2|]. split.
      * rewrite <- (firstn_skipn L (skipn start (cstr line))) in Hwf.
        pose proof (utf8_3_app _ _ _ Hwf Hu) as Hr.
        now rewrite skipn_skipn, Nat.add_comm in Hr.
      * intros t. destruct (is_stopword _ stopwords); [discriminate|].
        intros [= <-]. split; [now apply length_substr|exact Hu].
    + left. cbn [consumed emitted].
      assert (cstr (skipn start line) <> []) as Hne.
      { rewrite Hcs. intros E. apply (f_equal (@length byte)) in E.
        rewrite length_skipn in E. fold (strlen line) in E. simpl in E. lia. }
      assert (get_utf8_char_len (skipn start line) =
              get_utf8_char_len (cstr (skipn start line))) as Hk.
      { unfold get_utf8_char_len. f_equal. f_equal.
        destruct (cstr (skipn start line)) as [|c l] eqn:E; [congruence|].
        now rewrite (cstr_cons_inv _ _ _ E). }
      rewrite Hk. unfold strncpy0. rewrite cstr_firstn.
      rewrite Hcs in *.
      destruct (utf8_3_head _ Hwf Hne) as (K1 & K2 & K3 & _ & _).
      set (k := get_utf8_char_len (skipn start (cstr line))) in *.
      rewrite length_skipn in K1. fold (strlen line) in K1.
      split; [lia|]. split.
      * now rewrite skipn_skipn, Nat.add_comm in K3.
      * intros t. destruct (_ && _); [|discriminate]. intros [= <-].
        split; [|exact K2]. rewrite length_firstn, length_skipn.
        fold (strlen line). lia.
Qed.

Lemma segment_loop_well_formed fuel :
  forall start w final w' tr,
    segment_loop fuel line dict stopwords start w = Some (final, w', tr) ->
    start <= strlen line ->
    utf8_3 0 (skipn start (cstr line)) = true ->
    Forall (fun s => utf8_3 0 (skipn (pos s) (cstr line)) = true) tr.
Proof.
  induction fuel as [|fuel IH]; intros start w final w' tr H Hle Hwf.
  - simpl in H. destruct (start <? strlen line); [discriminate|].
    injection H as _ _ <-. constructor.
  - destruct (Nat.le_gt_cases (strlen line) start) as [Hge|Hlt].
    + rewrite segment_loop_done in H by exact Hge. injection H as _ _ <-.
      constructor.
    + rewrite segment_loop_step in H by exact Hlt. cbv zeta in H.
      destruct (segment_loop fuel line dict stopwords _ _)
        as [[[f w0] tr0]|] eqn:E; [|discriminate].
      injection H as _ _ <-.
      destruct (segment_step_consumed line dict stopwords start Hle)
        as (Hp & _).
      constructor; [now rewrite Hp|].
      destruct (segment_step_well_formed start Hlt Hwf) as [(A & B & _)|[A _]].
      * exact (IH _ _ _ _ _ E A B).
      * rewrite segment_loop_done in E by lia. injection E as _ _ <-.
        constructor.
Qed.

(** On well-formed text that does not end with an ASCII apostrophe, the
    cursor stops at the end of the line. *)
Lemma segment_loop_stops_at_end fuel :
  last (cstr line) x00 <> x27 ->
  forall start w final w' tr,
    segment_loop fuel line dict stopwords start w = Some (final, w', tr) ->
    start <= strlen line ->
    utf8_3 0 (skipn start (cstr line)) = true ->
    final = strlen line.
Proof.
  intros Hq.
  induction fuel as [|fuel IH]; intros start w final w' tr H Hle Hwf.
  - simpl in H. destruct (Nat.ltb_spec start (strlen line)); [discriminate|].
    injection H as <- _ _. lia.
  - destruct (Nat.le_gt_cases (strlen line) start) as [Hge|Hlt].
    + rewrite segment_loop_done in H by exact Hge. injection H as <- _ _. lia.
    + rewrite segment_loop_step in H by exact Hlt. cbv zeta in H.
      destruct (segment_loop fuel line dict stopwords _ _)
        as [[[f w0] tr0]|] eqn:E; [|discriminate].
      injection H as <- _ _.
      destruct (segment_step_well_formed start Hlt Hwf)
        as [(A & B & _)|(_ & _ & Hs)].
      * exact (IH _ _ _ _ _ E A B).
      * exfalso. apply Hq.
        rewrite <- (firstn_skipn start (cstr line)), Hs. apply last_last.
Qed.

End WellFormedInput.

(** The spans cover every well-formed line that does not end with an
    ASCII apostrophe, the dictionary being well formed. *)
Lemma covers_well_formed_line line dict stopwords w final w' tr :
  well_formed (cstr line) ->
  Forall (fun d => well_formed (cstr d)) dict ->
  last (cstr line) x00 <> x27 ->
  segment_line_in_memory line dict stopwords w = Some (final, w', tr) ->
  final = strlen line /\ covers line tr.
Proof.
  intros Hline Hdict Hq H.
  assert (final = strlen line) as ->.
  { unfold segment_line_in_memory in H.
    destruct (segment_loop (strlen line) line dict stopwords 0 w)
      as [[[f w0] tr0]|] eqn:E; [|discriminate].
    injection H as <- _ _.
    exact (segment_loop_stops_at_end line dict stopwords Hdict _ Hq
             _ _ _ _ _ E (Nat.le_0_l _) Hline). }
  split; [reflexivity|].
  now apply (covers_when_cursor_stops_at_end line dict stopwords w _ w' tr H).
Qed.

(** C8, as the code has it.  Every token the tokenizer writes is a slice
    of 1 to 21 bytes of the line.  When the line is well-formed text of
    one- to three-byte characters and so is every dictionary entry, each
    token starts and ends on a codepoint boundary of the line and is made
    of whole codepoints. *)
Theorem emitted_tokens_are_slices line dict stopwords w :
  exists final w' tr,
    segment_line_in_memory line dict stopwords w = Some (final, w', tr) /\
    (forall s t, In s tr -> emitted s = Some t -> token_is_slice line s t) /\
    (well_formed (cstr line) ->
     Forall (fun d => well_formed (cstr d)) dict ->
     forall s t, In s tr -> emitted s = Some t -> token_on_boundaries line s t).
Proof.
  destruct (segment_line_total line dict stopwords w)
    as (final & w' & tr & H & _).
  exists final, w', tr. split; [exact H|].
  unfold segment_line_in_memory in H.
  destruct (segment_loop (strlen line) line dict stopwords 0 w)
    as [[[f w0] tr0]|] eqn:E; [|discriminate].
  injection H as _ _ <-.
  pose proof (segment_loop_trace _ _ _ _ _ _ _ _ _ E) as T.
  rewrite Forall_forall in T. split.
  - intros s t Hs Ht. destruct (T s Hs) as [Hlt Hstep].
    rewrite Hstep in Ht |- *.
    destruct (segment_step_consumed line dict stopwords (pos s)) as (Hp & _);
      [lia|].
    now apply segment_step_token_slice.
  - intros Hline Hdict s t Hs Ht. destruct (T s Hs) as [Hlt Hstep].
    pose proof (segment_loop_well_formed line dict stopwords Hdict _ _ _ _ _ _
                  E (Nat.le_0_l _) Hline) as W.
    rewrite Forall_forall in W. specialize (W s Hs).
    destruct (segment_step_well_formed line dict stopwords Hdict (pos s) Hlt W)
      as [(A & B & C)|(_ & N & _)]; rewrite <- Hstep in *; [|congruence].
    destruct (C t Ht) as [Hlen Hu]. unfold token_on_boundaries.
    rewrite Hlen. unfold strlen in *.
    split; [apply well_formed_rest_boundary; [lia|exact W]|].
    split; [apply well_formed_rest_boundary; [lia|exact B]|exact Hu].
Qed.

(** The run on "自然语言处理！" with the dictionary 自然, 语言, 处理. *)
Lemma emitted_tokens_are_slices_witness :
  let line := bytes_of "自然语言处理！" in
  let dict := [bytes_of "自然"; bytes_of "语言"; bytes_of "处理"] in
  let tr :=
    [{| pos := 0; kind := DictMatch; consumed := 6;
        emitted := Some (bytes_of "自然") |};
     {| pos := 6; kind := DictMatch; consumed := 6;
        emitted := Some (bytes_of "语言") |};
     {| pos := 12; kind := DictMatch; consumed := 6;
        emitted := Some (bytes_of "处理") |};
     {| pos := 18; kind := Punctuation; consumed := 3; emitted := None |}] in
  let w' :=
    {| seg_file := bytes_of "[自然][语言][处理]" ++ [x0a];
       tbl := {| g_word_counts :=
                   [{| word := bytes_of "自然"; count := 1 |};
                    {| word := bytes_of "语言"; count := 1 |};
                    {| word := bytes_of "处理"; count := 1 |}];
                 g_word_capacity := 10; g_word_count := 3 |} |} in
  segment_line_in_memory line dict [] empty_world = Some (21, w', tr) /\
  (forall s t, In s tr -> emitted s = Some t -> token_is_slice line s t) /\
  (forall s t, In s tr -> emitted s = Some t -> token_on_boundaries line s t).
Proof.
  intros line dict tr w'.
  assert (segment_line_in_memory line dict [] empty_world = Some (21, w', tr))
    as E by (vm_compute; reflexivity).
  split; [exact E|].
  destruct (emitted_tokens_are_slices line dict [] empty_world)
    as (final0 & w0 & tr0 & E0 & S & B).
  rewrite E in E0. injection E0 as _ <- <-.
  split; [exact S|].
  apply B; [vm_compute; reflexivity|].
  repeat constructor.
Defined.

(** C8, as stated, fails.  On the four bytes F0 9F 98 80 of U+1F600 the
    scanner takes the lead byte for a character of one byte, and the token
    F0 ends inside the codepoint.  With the dictionary entry E4 B8, the
    first two bytes of "中", the line "中" yields the token E4 B8, which
    ends inside the codepoint as well. *)
Lemma token_ends_inside_codepoint :
  (let line := [xf0; x9f; x98; x80] in
   let s := {| pos := 0; kind := Fallback; consumed := 1;
               emitted := Some [xf0] |} in
   option_map snd (segment_line_in_memory line [] [] empty_world) =
   Some [s;
         {| pos := 1; kind := Fallback; consumed := 1; emitted := Some [x9f] |};
         {| pos := 2; kind := Fallback; consumed := 1; emitted := Some [x98] |};
         {| pos := 3; kind := Fallback; consumed := 1; emitted := Some [x80] |}]
   /\ is_char_boundary (cstr line) (pos s + length [xf0]) = false
   /\ ~ token_on_boundaries line s [xf0]) /\
  (let line := bytes_of "中" in
   let s := {| pos := 0; kind := DictMatch; consumed := 2;
               emitted := Some [xe4; xb8] |} in
   option_map snd (segment_line_in_memory line [[xe4; xb8]] [] empty_world) =
   Some [s;
         {| pos := 2; kind := Fallback; consumed := 1; emitted := Some [xad] |}]
   /\ is_char_boundary (cstr line) (pos s + length [xe4; xb8]) = false
   /\ ~ token_on_boundaries line s [xe4; xb8]).
Proof.
  split; cbv zeta; (split; [reflexivity|]); (split; [reflexivity|]);
    intros (_ & H & _); vm_compute in H; discriminate.
Qed.

(** * Further properties *)

(** ** Lexicon *)

(** X1. The stopword test and the dictionary test are membership by equality
    of C strings: a token passes exactly when some entry has the same bytes
    up to its terminator; an empty list has no member. *)
Theorem lexicon_membership_is_string_equality token entries :
  (is_stopword token entries = true <->
   exists e, In e entries /\ cstr token = cstr e) /\
  (in_dict token entries = true <->
   exists e, In e entries /\ cstr token = cstr e) /\
  is_stopword token [] = false /\ in_dict token [] = false.
Proof.
  split; [apply is_stopword_iff|]. split; [apply in_dict_iff|].
  split; reflexivity.
Qed.

Lemma in_dict_same_entries t d1 d2 :
  (forall d, In d d1 <-> In d d2) -> in_dict t d1 = in_dict t d2.
Proof.
  intros H. destruct (in_dict t d1) eqn:E1, (in_dict t d2) eqn:E2; auto.
  - apply in_dict_iff in E1. destruct E1 as (d & Hd & E).
    assert (in_dict t d2 = true) as E' by (apply in_dict_iff; exists d; split;
                                            [now apply H|exact E]).
    congruence.
  - apply in_dict_iff in E2. destruct E2 as (d & Hd & E).
    assert (in_dict t d1 = true) as E' by (apply in_dict_iff; exists d; split;
                                            [now apply H|exact E]).
    congruence.
Qed.

Lemma is_stopword_in_dict t l : is_stopword t l = in_dict t l.
Proof. induction l as [|x l IH]; simpl; [reflexivity|]. now rewrite IH. Qed.

Section SameLexicon.

Variables (line : list byte) (dict dict' stopwords stopwords' : list (list byte)).
Hypothesis same_dict : forall t, in_dict t dict = in_dict t dict'.
Hypothesis same_stop : forall t, is_stopword t stopwords = is_stopword t stopwords'.

Lemma dict_match_same m start :
  dict_match m line dict start = dict_match m line dict' start.
Proof.
  induction m as [|m IH]; simpl; [reflexivity|].
  now rewrite same_dict, IH.
Qed.

Lemma segment_step_same start :
  segment_step line dict stopwords start =
  segment_step line dict' stopwords' start.
Proof.
  unfold segment_step. rewrite dict_match_same.
  destruct (check_punctuation (skipn start line)); [reflexivity|].
  destruct (dict_match MAX_CHINESE_BYTES line dict' start) as [[L temp]|];
    now rewrite same_stop.
Qed.

Lemma segment_loop_same fuel :
  forall start w,
    segment_loop fuel line dict stopwords start w =
    segment_loop fuel line dict' stopwords' start w.
Proof.
  induction fuel as [|fuel IH]; intros start w; simpl; [reflexivity|].
  destruct (start <? strlen line); [|reflexivity].
  now rewrite segment_step_same, IH.
Qed.

End SameLexicon.

(** X2. The dictionary and the stopword list act as sets: two dictionaries with
    the same entries, and two stopword lists with the same entries, in any
    order and with any repetition, give the same run on every line. *)
Theorem lexicon_order_and_repetition_are_irrelevant
        line dict dict' stopwords stopwords' w :
  (forall d, In d dict <-> In d dict') ->
  (forall s, In s stopwords <-> In s stopwords') ->
  segment_line_in_memory line dict stopwords w =
  segment_line_in_memory line dict' stopwords' w.
Proof.
  intros Hd Hs. unfold segment_line_in_memory.
  rewrite (segment_loop_same line dict dict' stopwords stopwords'); auto.
  - intros t. now apply in_dict_same_entries.
  - intros t. rewrite !is_stopword_in_dict. now apply in_dict_same_entries.
Qed.

(** The dictionary of the round-trip scenario, reversed and with an entry
    repeated. *)
Lemma lexicon_order_and_repetition_are_irrelevant_witness :
  let line := bytes_of "自然语言处理！" in
  let a := bytes_of "自然" in
  let b := bytes_of "语言" in
  let c := bytes_of "处理" in
  segment_line_in_memory line [a; b; c] [b] empty_world =
  segment_line_in_memory line [c; b; a; b] [b; b] empty_world.
Proof.
  intros line a b c.
  apply lexicon_order_and_repetition_are_irrelevant;
    intros d; simpl; tauto.
Defined.

(** ** Dictionary entries that cannot match *)

Lemma strcmp_eq_length a b :
  strcmp_eq a b = true -> strlen a = strlen b.
Proof. intros H. apply strcmp_eq_iff in H. unfold strlen. now rewrite H. Qed.

Lemma dict_match_skip_entry d dict line start :
  strlen d = 0 \/ MAX_CHINESE_BYTES < strlen d ->
  forall m, m <= MAX_CHINESE_BYTES ->
            dict_match m line (d :: dict) start = dict_match m line dict start.
Proof.
  intros Hd. induction m as [|m IH]; intros Hm; [reflexivity|].
  cbn [dict_match in_dict].
  destruct (Nat.leb_spec (start + S m) (strlen line)) as [Hle|Hgt];
    [|apply IH; lia].
  destruct (strcmp_eq (strncpy0 (skipn start line) (S m)) d) eqn:E.
  - exfalso. apply strcmp_eq_length in E.
    rewrite strncpy0_substr in E by lia. unfold strlen at 1 in E.
    rewrite cstr_substr, length_substr in E by exact Hle. lia.
  - rewrite IH by lia. reflexivity.
Qed.

(** X3. A dictionary entry that is empty (a blank line of the dictionary file)
    or longer than 21 bytes never matches: with or without it the run is
    the same on every line. *)
Theorem unmatchable_dictionary_entry d line dict stopwords w :
  strlen d = 0 \/ MAX_CHINESE_BYTES < strlen d ->
  segment_line_in_memory line (d :: dict) stopwords w =
  segment_line_in_memory line dict stopwords w.
Proof.
  intros Hd. unfold segment_line_in_memory.
  assert (forall fuel start w0,
             segment_loop fuel line (d :: dict) stopwords start w0 =
             segment_loop fuel line dict stopwords start w0) as H.
  { induction fuel as [|fuel IH]; intros start w0; simpl; [reflexivity|].
    destruct (start <? strlen line); [|reflexivity].
    assert (segment_step line (d :: dict) stopwords start =
            segment_step line dict stopwords start) as ->.
    { unfold segment_step.
      now rewrite (dict_match_skip_entry d dict line start Hd
                     MAX_CHINESE_BYTES (Nat.le_refl _)). }
    now rewrite IH. }
  now rewrite H.
Qed.

(** An entry of eight characters (24 bytes) and a blank entry beside the
    entries of the round-trip scenario. *)
Lemma unmatchable_dictionary_entry_witness :
  let line := bytes_of "自然语言处理自然语言处理！" in
  let dict := [bytes_of "自然"; bytes_of "语言"; bytes_of "处理"] in
  segment_line_in_memory line (bytes_of "自然语言处理自然语言" :: dict) [] empty_world =
  segment_line_in_memory line dict [] empty_world /\
  segment_line_in_memory line ([] :: dict) [] empty_world =
  segment_line_in_memory line dict [] empty_world.
Proof.
  intros line dict. split.
  - apply unmatchable_dictionary_entry. right. vm_compute. lia.
  - apply unmatchable_dictionary_entry. left. reflexivity.
Defined.

(** ** What a run writes *)

Lemma dict_match_temp_cstr m line dict start L temp :
  dict_match m line dict start = Some (L, temp) -> cstr temp = temp.
Proof.
  induction m as [|m IH]; simpl; [discriminate|].
  destruct (start + S m <=? strlen line); [|exact IH].
  destruct (in_dict _ dict); [|exact IH].
  intros [= _ <-]. apply cstr_idem.
Qed.

(** A token an iteration writes is a C string that is not a stopword. *)
Lemma segment_step_emitted line dict stopwords start t :
  emitted (segment_step line dict stopwords start) = Some t ->
  cstr t = t /\ is_stopword t stopwords = false.
Proof.
  unfold segment_step.
  destruct (check_punctuation (skipn start line)); [discriminate|].
  destruct (dict_match MAX_CHINESE_BYTES line dict start) as [[L temp]|] eqn:E.
  - cbn [emitted]. destruct (is_stopword temp stopwords) eqn:Es; [discriminate|].
    intros [= <-]. split; [|exact Es]. exact (dict_match_temp_cstr _ _ _ _ _ _ E).
  - cbn [emitted].
    destruct (is_stopword (strncpy0 _ _) stopwords) eqn:Es;
      [rewrite andb_false_r; discriminate|].
    destruct (negb _ && negb false); [|discriminate].
    intros [= <-]. split; [apply cstr_idem|exact Es].
Qed.

Lemma in_tokens t tr :
  In t (tokens tr) <-> exists s, In s tr /\ emitted s = Some t.
Proof.
  induction tr as [|s tr IH]; simpl.
  - split; [tauto|]. now intros (? & [] & _).
  - destruct (emitted s) as [t0|] eqn:E; simpl; rewrite IH; split.
    + intros [<-|(x & Hx & Ex)]; eauto.
    + intros (x & [<-|Hx] & Ex); [left; congruence|eauto].
    + intros (x & Hx & Ex). eauto.
    + intros (x & [<-|Hx] & Ex); [congruence|eauto].
Qed.

Lemma segment_loop_world fuel line dict stopwords :
  forall start w final w' tr,
    segment_loop fuel line dict stopwords start w = Some (final, w', tr) ->
    seg_file w' = seg_file w ++ concat (map render (tokens tr)) /\
    tbl w' = record_all (tokens tr) (tbl w).
Proof.
  induction fuel as [|fuel IH]; intros start w final w' tr H.
  - simpl in H. destruct (start <? strlen line); [discriminate|].
    injection H as _ <- <-. simpl. now rewrite app_nil_r.
  - destruct (Nat.le_gt_cases (strlen line) start) as [Hge|Hlt].
    + rewrite segment_loop_done in H by exact Hge. injection H as _ <- <-.
      simpl. now rewrite app_nil_r.
    + rewrite segment_loop_step in H by exact Hlt. cbv zeta in H.
      destruct (segment_loop fuel line dict stopwords _ _)
        as [[[f w0] tr0]|] eqn:E; [|discriminate].
      injection H as _ <- <-. destruct (IH _ _ _ _ _ E) as [Hf Ht].
      cbn [tokens].
      destruct (emitted (segment_step line dict stopwords start)) as [t|] eqn:Et.
      * destruct (segment_step_emitted _ _ _ _ _ Et) as [Hc _].
        cbn [emit_opt] in Hf, Ht. unfold emit in Hf, Ht. cbn [seg_file tbl] in *.
        rewrite Hf, Ht, Hc. cbn [map concat]. unfold render, record_all.
        cbn [fold_left]. now rewrite <- !app_assoc.
      * exact (conj Hf Ht).
Qed.

(** X4. The segmented file receives [[t]] for each token of the run, in order,
    and then the newline; the table receives one [add_token_count] per
    token, in the same order; nothing else is written. *)
Theorem run_writes_its_tokens line dict stopwords w :
  exists final w' tr,
    segment_line_in_memory line dict stopwords w = Some (final, w', tr) /\
    seg_file w' = seg_file w ++ concat (map render (tokens tr)) ++ [x0a] /\
    tbl w' = record_all (tokens tr) (tbl w).
Proof.
  destruct (segment_line_total line dict stopwords w)
    as (final & w' & tr & H & _).
  exists final, w', tr. split; [exact H|].
  unfold segment_line_in_memory in H.
  destruct (segment_loop (strlen line) line dict stopwords 0 w)
    as [[[f w0] tr0]|] eqn:E; [|discriminate].
  injection H as _ <- <-. cbn [seg_file tbl].
  destruct (segment_loop_world _ _ _ _ _ _ _ _ _ E) as [-> ->].
  now rewrite <- app_assoc.
Qed.

(** X5. No token of a run is a stopword, and every token is a C string free
    of NUL. *)
Theorem tokens_are_never_stopwords line dict stopwords w :
  exists final w' tr,
    segment_line_in_memory line dict stopwords w = Some (final, w', tr) /\
    forall t, In t (tokens tr) ->
              is_stopword t stopwords = false /\ ~ In x00 t.
Proof.
  destruct (segment_line_total line dict stopwords w)
    as (final & w' & tr & H & _).
  exists final, w', tr. split; [exact H|].
  unfold segment_line_in_memory in H.
  destruct (segment_loop (strlen line) line dict stopwords 0 w)
    as [[[f w0] tr0]|] eqn:E; [|discriminate].
  injection H as _ _ <-.
  pose proof (segment_loop_trace _ _ _ _ _ _ _ _ _ E) as T.
  rewrite Forall_forall in T.
  intros t Ht. apply in_tokens in Ht. destruct Ht as (s & Hs & Es).
  destruct (T s Hs) as [_ Hstep]. rewrite Hstep in Es.
  destruct (segment_step_emitted _ _ _ _ _ Es) as [Hc Hsw].
  split; [exact Hsw|]. rewrite <- Hc. apply cstr_no_nul.
Qed.

(** ** The frequency table across calls *)

Lemma strcmp_eq_same_cstr x a b :
  cstr a = cstr b -> strcmp_eq x a = strcmp_eq x b.
Proof.
  intros H. destruct (strcmp_eq x a) eqn:Ea, (strcmp_eq x b) eqn:Eb; auto.
  - apply strcmp_eq_iff in Ea. rewrite H in Ea. apply strcmp_eq_iff in Ea.
    congruence.
  - apply strcmp_eq_iff in Eb. rewrite <- H in Eb. apply strcmp_eq_iff in Eb.
    congruence.
Qed.

Lemma count_of_same_cstr a b l : cstr a = cstr b -> count_of a l = count_of b l.
Proof.
  intros H. induction l as [|e l IH]; simpl; [reflexivity|].
  now rewrite (strcmp_eq_same_cstr (word e) a b H), IH.
Qed.

Lemma sum_counts_app l1 l2 :
  sum_counts (l1 ++ l2) = (sum_counts l1 + sum_counts l2)%Z.
Proof. induction l1 as [|e l IH]; simpl; [reflexivity|]. rewrite IH. lia. Qed.

Lemma counts_below_sum l :
  Forall (fun e => cstr (word e) = word e /\ (1 <= count e)%Z) l ->
  (0 <= sum_counts l)%Z /\
  (forall e, In e l -> (1 <= count e <= sum_counts l)%Z) /\
  (forall t, (0 <= count_of t l <= sum_counts l)%Z).
Proof.
  induction 1 as [|e l [_ He] _ (IH0 & IH1 & IH2)]; simpl.
  - repeat split; try lia; tauto.
  - split; [lia|]. split.
    + intros x [<-|Hx]; [lia|]. specialize (IH1 x Hx). lia.
    + intros t. specialize (IH2 t). destruct (strcmp_eq (word e) t); lia.
Qed.

Lemma bump_keeps_table token l l' :
  bump token l = Some l' ->
  Forall (fun e => cstr (word e) = word e /\ (1 <= count e)%Z) l ->
  (sum_counts l < INT_MAX)%Z ->
  Forall (fun e => cstr (word e) = word e /\ (1 <= count e)%Z) l' /\
  sum_counts l' = (sum_counts l + 1)%Z.
Proof.
  revert l'; induction l as [|e l IH]; intros l' H F B; simpl in H;
    [discriminate|].
  inversion F as [|? ? [Hw Hc] Fl]; subst.
  destruct (counts_below_sum l Fl) as (S0 & _).
  simpl in B. destruct (strcmp_eq (word e) token).
  - injection H as <-. rewrite wrap_int_small by (unfold INT_MAX in *; lia).
    split; [|simpl; lia]. constructor; [simpl; split; [exact Hw|lia]|exact Fl].
  - destruct (bump token l) as [l0|]; [|discriminate]. injection H as <-.
    destruct (IH l0 eq_refl Fl) as [F' S']; [lia|].
    split; [constructor; auto|]. simpl. lia.
Qed.

Lemma has_word_false_not_in token l :
  has_word token l = false ->
  Forall (fun e => cstr (word e) = word e /\ (1 <= count e)%Z) l ->
  ~ In (cstr token) (map word l).
Proof.
  induction l as [|e l IH]; simpl; [tauto|]. intros H F.
  inversion F as [|? ? [Hw _] Fl]; subst.
  destruct (strcmp_eq (word e) token) eqn:E; [discriminate|].
  intros [Hx|Hx]; [|now apply IH].
  assert (strcmp_eq (word e) token = true) as E'
      by (apply strcmp_eq_iff; congruence).
  congruence.
Qed.

Lemma add_token_count_keeps_table token g :
  table_ok g -> (g_word_count g < INT_MAX)%Z ->
  table_ok (add_token_count token g) /\
  g_word_count (add_token_count token g) = (g_word_count g + 1)%Z.
Proof.
  intros (N & F & S) B. destruct (counts_below_sum _ F) as (S0 & _).
  assert (g_word_count (add_token_count token g) = (g_word_count g + 1)%Z) as Hn.
  { rewrite add_token_count_total. apply wrap_size_small.
    unfold SIZE_MOD, INT_MAX in *. lia. }
  split; [|exact Hn]. unfold table_ok. rewrite Hn. clear Hn.
  unfold add_token_count.
  pose proof (bump_spec token (g_word_counts g)) as Bs.
  destruct (bump token (g_word_counts g)) as [l'|] eqn:E; cbn [g_word_counts].
  - destruct Bs as (_ & _ & Hm & _).
    destruct (bump_keeps_table _ _ _ E F) as [F' S']; [lia|].
    rewrite Hm. repeat split; auto. lia.
  - destruct Bs as [Hw _]. rewrite map_app, sum_counts_app. cbn [map word].
    split; [|split].
    + apply NoDup_app; [exact N|repeat constructor; simpl; tauto|].
      intros x Hx [<-|[]]. revert Hx. now apply has_word_false_not_in.
    + apply Forall_app. split; [exact F|]. constructor; [|constructor].
      simpl. split; [apply cstr_idem|lia].
    + simpl. lia.
Qed.

Lemma count_of_add_token token t g :
  table_ok g -> (g_word_count g < INT_MAX)%Z ->
  count_of t (g_word_counts (add_token_count token g)) =
  if strcmp_eq token t then (count_of t (g_word_counts g) + 1)%Z
  else count_of t (g_word_counts g).
Proof.
  intros (N & F & S) B. destruct (counts_below_sum _ F) as (_ & _ & Hc).
  destruct (strcmp_eq token t) eqn:E.
  - apply strcmp_eq_iff in E.
    rewrite !(count_of_same_cstr t token) by (symmetry; exact E).
    apply add_token_count_same. specialize (Hc token). lia.
  - assert (cstr t <> cstr token) as Hne.
    { intros H. assert (strcmp_eq token t = true) by now apply strcmp_eq_iff.
      congruence. }
    unfold add_token_count.
    pose proof (bump_spec token (g_word_counts g)) as Bs.
    destruct (bump token (g_word_counts g)) as [l'|]; cbn [g_word_counts].
    + destruct Bs as (_ & _ & _ & Ho). now apply Ho.
    + rewrite count_of_app. cbn [word count]. rewrite strcmp_eq_cstr_l, E.
      destruct (has_word t (g_word_counts g)) eqn:Hw; [reflexivity|].
      symmetry. now apply has_word_count_of_absent.
Qed.

Lemma record_all_keeps_table ts :
  forall g,
    table_ok g -> (g_word_count g + Z.of_nat (length ts) <= INT_MAX)%Z ->
    table_ok (record_all ts g) /\
    g_word_count (record_all ts g) = (g_word_count g + Z.of_nat (length ts))%Z /\
    forall t, count_of t (g_word_counts (record_all ts g)) =
              (count_of t (g_word_counts g) + Z.of_nat (occurrences t ts))%Z.
Proof.
  induction ts as [|a ts IH]; intros g Hok B.
  - simpl. split; [exact Hok|]. split; [lia|].
    intros t. unfold occurrences. simpl. lia.
  - cbn [record_all fold_left length] in *.
    destruct (add_token_count_keeps_table a g Hok) as [Hok' Hn]; [lia|].
    destruct (IH (add_token_count a g) Hok') as (H1 & H2 & H3); [lia|].
    fold (record_all ts (add_token_count a g)) in *.
    split; [exact H1|]. split; [lia|].
    intros t. rewrite H3, (count_of_add_token a t g Hok) by lia.
    unfold occurrences. cbn [filter].
    destruct (strcmp_eq a t); cbn [length]; lia.
Qed.

(** X6. From a table that [add_token_count] built, a sequence of calls keeps
    the invariants of the table (distinct words, counts at least 1,
    [g_word_count] the sum of the counts), adds the number of calls to
    [g_word_count] and, to the count of every token, the number of calls
    made with that token; so no count exceeds [g_word_count].  The counters
    are taken below [INT_MAX]. *)
Theorem table_counts_occurrences ts g :
  table_ok g ->
  (g_word_count g + Z.of_nat (length ts) <= INT_MAX)%Z ->
  let g' := record_all ts g in
  table_ok g' /\
  g_word_count g' = (g_word_count g + Z.of_nat (length ts))%Z /\
  (forall t, count_of t (g_word_counts g') =
             (count_of t (g_word_counts g) + Z.of_nat (occurrences t ts))%Z) /\
  (forall e, In e (g_word_counts g') -> (1 <= count e <= g_word_count g')%Z).
Proof.
  intros Hok B g'. subst g'.
  destruct (record_all_keeps_table ts g Hok B) as (H1 & H2 & H3).
  split; [exact H1|]. split; [exact H2|]. split; [exact H3|].
  destruct H1 as (_ & F & S). rewrite <- S.
  now apply counts_below_sum.
Qed.

(** Five tokens recorded in the empty table. *)
Lemma table_counts_occurrences_witness :
  let a := bytes_of "自然" in
  let b := bytes_of "语言" in
  let g' := record_all [a; b; a; a; b] empty_globals in
  table_ok g' /\ g_word_count g' = 5%Z /\
  count_of a (g_word_counts g') = 3%Z /\
  count_of b (g_word_counts g') = 2%Z /\
  count_of (bytes_of "处理") (g_word_counts g') = 0%Z.
Proof.
  intros a b g'.
  assert (table_ok empty_globals) as Hok.
  { repeat split; simpl; constructor. }
  destruct (table_counts_occurrences [a; b; a; a; b] empty_globals Hok)
    as (H1 & H2 & H3 & _); [vm_compute; congruence|].
  split; [exact H1|]. split; [exact H2|].
  split; [exact (H3 a)|]. split; [exact (H3 b)|exact (H3 (bytes_of "处理"))].
Defined.

(** ** The array of the table *)

Lemma g_word_total_add token g :
  (g_word_total g <= g_word_total (add_token_count token g)
   <= g_word_total g + 1)%Z.
Proof.
  unfold g_word_total, add_token_count.
  pose proof (bump_spec token (g_word_counts g)) as Bs.
  destruct (bump token (g_word_counts g)) as [l'|]; cbn [g_word_counts].
  - destruct Bs as (_ & _ & Hm & _).
    apply (f_equal (@length _)) in Hm. rewrite !length_map in Hm. lia.
  - rewrite length_app. simpl. lia.
Qed.

Lemma capacity_after_add token g :
  capacity_ok g -> (g_word_total g < 2 ^ 62)%Z ->
  let g' := add_token_count token g in
  (g_word_total g < g_word_capacity g')%Z /\ capacity_ok g'.
Proof.
  intros [H1 H2] B g'. subst g'. unfold capacity_ok.
  pose proof (g_word_total_add token g) as Ht.
  assert (0 <= g_word_total g)%Z as H0 by (unfold g_word_total; lia).
  assert (g_word_capacity (add_token_count token g) =
          if (g_word_capacity g <=? g_word_total g)%Z
          then (if (g_word_capacity g =? 0)%Z then 10%Z
                else wrap_size (g_word_capacity g * 2))
          else g_word_capacity g) as ->.
  { unfold add_token_count. now destruct (bump token (g_word_counts g)). }
  destruct (Z.leb_spec (g_word_capacity g) (g_word_total g)) as [Hle|Hgt];
    [|lia].
  destruct (Z.eqb_spec (g_word_capacity g) 0) as [Hz|Hnz]; [lia|].
  rewrite wrap_size_small by (unfold SIZE_MOD; lia). lia.
Qed.

(** X7. A call of [add_token_count] leaves the array large enough: the slot
    [g_word_counts[g_word_total]] it may write lies below the capacity it
    has set, and afterwards the entries fit in the array, which is at most
    twice as large as they need.  The table has fewer than 2^62 entries. *)
Theorem table_array_stays_in_bounds token g :
  capacity_ok g -> (g_word_total g < 2 ^ 62)%Z ->
  let g' := add_token_count token g in
  (g_word_total g < g_word_capacity g')%Z /\ capacity_ok g'.
Proof.
  intros [H1 H2] B g'. subst g'. unfold capacity_ok.
  pose proof (g_word_total_add token g) as Ht.
  assert (0 <= g_word_total g)%Z as H0 by (unfold g_word_total; lia).
  assert (g_word_capacity (add_token_count token g) =
          if (g_word_capacity g <=? g_word_total g)%Z
          then (if (g_word_capacity g =? 0)%Z then 10%Z
                else wrap_size (g_word_capacity g * 2))
          else g_word_capacity g) as ->.
  { unfold add_token_count. now destruct (bump token (g_word_counts g)). }
  destruct (Z.leb_spec (g_word_capacity g) (g_word_total g)) as [Hle|Hgt];
    [|lia].
  destruct (Z.eqb_spec (g_word_capacity g) 0) as [Hz|Hnz]; [lia|].
  rewrite wrap_size_small by (unfold SIZE_MOD; lia). lia.
Qed.

(** The eleventh distinct word: the array of 10 slots is full and is
    doubled before the word is stored. *)
Lemma table_array_stays_in_bounds_witness :
  let words := map (fun b => [b]) [x61; x62; x63; x64; x65; x66; x67; x68; x69; x6a] in
  let g := record_all words empty_globals in
  let g' := add_token_count [x6b] g in
  (g_word_total g = 10 /\ g_word_capacity g = 10)%Z /\
  (g_word_total g < g_word_capacity g')%Z /\ capacity_ok g' /\
  g_word_capacity g' = 20%Z.
Proof.
  intros words g g'. split; [split; reflexivity|].
  assert (capacity_ok g) as Hok by (unfold capacity_ok; vm_compute; split; congruence).
  destruct (table_array_stays_in_bounds [x6b] g Hok) as [H1 H2];
    [vm_compute; reflexivity|].
  split; [exact H1|]. split; [exact H2|reflexivity].
Defined.

(** ** Punctuation matches *)

Lemma strncmp_eq_cstr str p n : strncmp_eq str p n = strncmp_eq (cstr str) p n.
Proof.
  destruct (strncmp_eq str p n) eqn:E1, (strncmp_eq (cstr str) p n) eqn:E2; auto.
  - apply strncmp_eq_iff in E1. rewrite <- (cstr_idem str) in E1.
    apply strncmp_eq_iff in E1. congruence.
  - apply strncmp_eq_iff in E2. rewrite cstr_idem in E2.
    apply strncmp_eq_iff in E2. congruence.
Qed.

Lemma check_punctuation_in_cstr table str :
  check_punctuation_in table str = check_punctuation_in table (cstr str).
Proof.
  induction table as [|p table IH]; simpl; [reflexivity|].
  now rewrite <- strncmp_eq_cstr, IH.
Qed.

(** X8. The length the classifier reports is 1 or 3.  It is the length of
    the bytes an entry of the table is compared on, these bytes start the
    text, and so the length lies within the text; save for one text: an
    ASCII apostrophe alone, for which the classifier reports 3 bytes where
    1 is left.  A quotation mark alone gives 1, and an empty string does
    not match. *)
Theorem punctuation_match_length str :
  (forall n,
      check_punctuation str = Some n ->
      (n = 1 \/ n = 3) /\
      ((n <= strlen str /\
        exists p, In p PUNCTUATIONS /\ bytes p = n /\
                  bytes p <= length (punct p) /\
                  firstn n (cstr str) = compared p) \/
       (n = 3 /\ cstr str = [x27]))) /\
  (cstr str = [x27] -> check_punctuation str = Some 3) /\
  (cstr str = [x22] -> check_punctuation str = Some 1) /\
  (cstr str = [] -> check_punctuation str = None).
Proof.
  split; [|split; [|split]].
  - intros n H. apply check_punctuation_in_some in H.
    destruct H as (p & Hp & <- & Hm). split.
    + assert (forallb (fun p => (bytes p =? 1) || (bytes p =? 3)) PUNCTUATIONS
              = true) as Hb by reflexivity.
      rewrite forallb_forall in Hb. specialize (Hb p Hp).
      apply orb_true_iff in Hb. destruct Hb as [Hb|Hb];
        apply Nat.eqb_eq in Hb; auto.
    + destruct (punctuation_entries p Hp) as [(Hl & Hc & _)|[Hb Hs]].
      * left. apply (prefix_entry_match _ p Hl Hc) in Hm.
        split; [|exists p; auto].
        apply (f_equal (@length byte)) in Hm.
        rewrite length_firstn, length_compared in Hm by exact Hl.
        unfold strlen. lia.
      * right. split; [exact Hb|]. rewrite Hb, Hs in Hm.
        apply short_entry_match in Hm; [exact Hm|discriminate].
  - unfold check_punctuation. rewrite check_punctuation_in_cstr.
    intros ->. reflexivity.
  - unfold check_punctuation. rewrite check_punctuation_in_cstr.
    intros ->. reflexivity.
  - unfold check_punctuation. rewrite check_punctuation_in_cstr.
    intros ->. reflexivity.
Qed.

(** The classifier on "，的", on ", 3x", on a lone apostrophe and on the
    empty string. *)
Lemma punctuation_match_length_witness :
  (3 <= strlen (bytes_of "，的") /\
   firstn 3 (cstr (bytes_of "，的")) = bytes_of "，") /\
  (check_punctuation (bytes_of ", 3x") = Some 3 /\
   3 <= strlen (bytes_of ", 3x")) /\
  check_punctuation (bytes_of "'") = Some 3 /\
  strlen (bytes_of "'") = 1 /\
  check_punctuation [] = None.
Proof.
  split; [|split; [|split; [|split]]].
  - destruct (proj1 (punctuation_match_length (bytes_of "，的")) 3 eq_refl)
      as [_ [[H _]|[_ H]]]; [|discriminate H].
    split; [exact H|reflexivity].
  - destruct (proj1 (punctuation_match_length (bytes_of ", 3x")) 3 eq_refl)
      as [_ [[H _]|[_ H]]]; [|discriminate H].
    split; [reflexivity|exact H].
  - apply (proj1 (proj2 (punctuation_match_length (bytes_of "'")))).
    reflexivity.
  - reflexivity.
  - apply (proj2 (proj2 (proj2 (punctuation_match_length [])))). reflexivity.
Defined.

(** ** Reading files *)

Lemma fgets_take_spec k :
  forall stream chunk unread,
    fgets_take k stream = (chunk, unread) ->
    chunk ++ unread = stream /\ length chunk <= k /\
    (chunk = [] -> k = 0 \/ stream = []) /\
    ((~ In x0a chunk) \/ exists body, chunk = body ++ [x0a] /\ ~ In x0a body).
Proof.
  induction k as [|k IH]; intros stream chunk unread H; simpl in H.
  - injection H as <- <-. simpl. repeat split; auto. 
  - destruct stream as [|c rest].
    + injection H as <- <-. simpl. repeat split; auto; lia.
    + destruct (byte_eqb_spec c x0a) as [->|Hc].
      * injection H as <- <-. simpl. repeat split; auto; try lia; try discriminate.
        right. exists []. simpl. auto.
      * destruct (fgets_take k rest) as [ch lf] eqn:E. injection H as <- <-.
        destruct (IH _ _ _ E) as (H1 & H2 & _ & H4). simpl.
        split; [now rewrite H1|]. split; [lia|]. split; [discriminate|].
        destruct H4 as [H4|(body & -> & H4)].
        -- left. intros [Hx|Hx]; [congruence|contradiction].
        -- right. exists (c :: body). split; [reflexivity|].
           intros [Hx|Hx]; [congruence|contradiction].
Qed.

(** The entry stored for a buffer: its bytes before the first newline or
    NUL. *)
Lemma stored_entry chunk :
  strdup (store_nul chunk (strcspn chunk [x0a])) =
  firstn (strcspn chunk [x0a]) chunk /\
  ~ In x0a (firstn (strcspn chunk [x0a]) chunk) /\
  ~ In x00 (firstn (strcspn chunk [x0a]) chunk).
Proof.
  unfold strdup. induction chunk as [|c chunk (IH1 & IH2 & IH3)]; simpl.
  - auto.
  - destruct (is_nul_spec c) as [->|Hn]; simpl.
    + auto.
    + rewrite orb_false_r. destruct (byte_eqb_spec c x0a) as [->|Hc]; simpl.
      * auto.
      * destruct (is_nul_spec c); [contradiction|]. rewrite IH1.
        repeat split; auto; intros [Hx|Hx]; auto.
Qed.

Lemma strcspn_no_stop body rest :
  ~ In x0a body -> ~ In x00 body ->
  strcspn (body ++ rest) [x0a] = length body + strcspn rest [x0a].
Proof.
  induction body as [|c body IH]; simpl; intros H1 H2; [reflexivity|].
  destruct (is_nul_spec c) as [->|_]; [tauto|]. simpl.
  destruct (byte_eqb_spec c x0a) as [->|_]; [tauto|]. simpl.
  rewrite IH; tauto.
Qed.

Lemma read_loop_spec size :
  2 <= size ->
  forall fuel stream capacity entries,
    length stream <= fuel ->
    exists more capacity',
      read_loop size fuel stream capacity entries =
      Some (entries ++ more, capacity') /\
      length more <= length stream /\
      Forall (fun e => length e < size /\ ~ In x0a e /\ ~ In x00 e) more /\
      length (concat more) <= length stream.
Proof.
  intros Hsize. induction fuel as [|fuel IH]; intros stream capacity entries Hf.
  - destruct stream; [|simpl in Hf; lia]. exists [], capacity. simpl.
    rewrite app_nil_r. repeat split; auto.
  - destruct stream as [|c rest].
    + exists [], capacity. simpl. rewrite app_nil_r. repeat split; auto.
    + cbn [read_loop fgets].
      destruct (fgets_take (size - 1) (c :: rest)) as [chunk unread] eqn:E.
      destruct (fgets_take_spec _ _ _ _ E) as (H1 & H2 & H3 & _).
      assert (chunk <> []) as Hne.
      { intros ->. destruct (H3 eq_refl); [lia|discriminate]. }
      assert (length chunk + length unread = length (c :: rest)) as Hlen
          by (now rewrite <- H1, length_app).
      assert (length unread < length (c :: rest)) as Hlt.
      { destruct chunk; [congruence|simpl in *; lia]. }
      cbv zeta.
      destruct (stored_entry chunk) as (He & Hnl & Hnul).
      set (e := strdup (store_nul chunk (strcspn chunk [x0a]))) in *.
      match goal with
      | |- context [read_loop size fuel unread ?c (entries ++ [e])] =>
          destruct (IH unread c (entries ++ [e])) as (more & cap' & -> & L & F & C)
      end; [simpl in *; lia|].
      exists (e :: more), cap'. rewrite <- app_assoc. split; [reflexivity|].
      assert (length e <= length chunk) as Hel
          by (rewrite He, length_firstn; lia).
      split; [simpl in *; lia|]. split.
      * constructor; [|exact F]. rewrite He at 2 3.
        split; [lia|]. split; assumption.
      * cbn [concat]. rewrite length_app. lia.
Qed.

Lemma read_lines_bounded size file :
  2 <= size -> reads_bounded size file (read_lines size file).
Proof.
  intros Hsize. destruct file as [stream|]; simpl; [|reflexivity].
  destruct (read_loop_spec size Hsize (length stream) stream 10 []
              (Nat.le_refl _)) as (more & cap & -> & L & F & C).
  exists more. auto.
Qed.

(** X9. The three readers return on every file: NULL for a file that cannot
    be opened, an empty array for an empty file, and otherwise entries that
    hold no newline and no NUL and are shorter than the buffer (256 bytes
    for the dictionary and the stopwords, 2048 for the sentences), at most
    one entry per byte of the file. *)
Theorem readers_return_bounded_entries file :
  reads_bounded 256 file (read_dict file) /\
  reads_bounded 2048 file (read_sentences file) /\
  reads_bounded 256 file (read_stopwords file) /\
  read_dict None = Some None /\ read_dict (Some []) = Some (Some []).
Proof.
  split; [apply read_lines_bounded; lia|].
  split; [apply read_lines_bounded; lia|].
  split; [apply read_lines_bounded; lia|].
  split; reflexivity.
Qed.

Lemma fgets_take_line k l rest :
  ~ In x0a l -> length l < k ->
  fgets_take k (l ++ x0a :: rest) = (l ++ [x0a], rest).
Proof.
  revert k; induction l as [|c l IH]; intros k Hn Hk.
  - destruct k; [simpl in Hk; lia|]. reflexivity.
  - destruct k; [simpl in Hk; lia|]. simpl.
    destruct (byte_eqb_spec c x0a) as [->|_]; [simpl in Hn; tauto|].
    rewrite IH; [reflexivity|simpl in Hn; tauto|simpl in Hk; lia].
Qed.

Lemma fgets_take_last k l :
  ~ In x0a l -> length l <= k -> fgets_take k l = (l, []).
Proof.
  revert k; induction l as [|c l IH]; intros k Hn Hk.
  - destruct k; reflexivity.
  - destruct k; [simpl in Hk; lia|]. simpl.
    destruct (byte_eqb_spec c x0a) as [->|_]; [simpl in Hn; tauto|].
    rewrite IH; [reflexivity|simpl in Hn; tauto|simpl in Hk; lia].
Qed.

Lemma stored_line l :
  ~ In x0a l -> ~ In x00 l ->
  strdup (store_nul (l ++ [x0a]) (strcspn (l ++ [x0a]) [x0a])) = l /\
  strdup (store_nul l (strcspn l [x0a])) = l.
Proof.
  intros H1 H2. split.
  - rewrite (proj1 (stored_entry _)), strcspn_no_stop by assumption.
    simpl. rewrite Nat.add_0_r, firstn_app, Nat.sub_diag, firstn_all.
    simpl. now rewrite app_nil_r.
  - rewrite (proj1 (stored_entry _)).
    rewrite <- (app_nil_r l) at 1. rewrite strcspn_no_stop by assumption.
    simpl. now rewrite Nat.add_0_r, firstn_all.
Qed.

Lemma read_loop_lines size lines last :
  Forall (fits_buffer size) lines ->
  length last < size -> ~ In x0a last -> ~ In x00 last ->
  forall fuel capacity entries,
    length (file_of lines last) <= fuel ->
    exists capacity',
      read_loop size fuel (file_of lines last) capacity entries =
      Some (entries ++ lines ++ last_entry last, capacity').
Proof.
  intros F Hl Hn1 Hn2. induction F as [|l lines (Fl & Fn & Fz) F IH];
    intros fuel capacity entries Hf.
  - unfold file_of. cbn [map concat app].
    destruct last as [|c last].
    + exists capacity. destruct fuel; simpl; now rewrite app_nil_r.
    + destruct fuel as [|fuel]; [simpl in Hf; lia|].
      cbn [read_loop fgets]. rewrite fgets_take_last by (auto; simpl in *; lia).
      cbv zeta. rewrite (proj2 (stored_line (c :: last) Hn1 Hn2)).
      eexists. destruct fuel; reflexivity.
  - unfold file_of in *. cbn [map concat] in *. rewrite <- !app_assoc in *.
    cbn [app] in *.
    destruct fuel as [|fuel];
      [rewrite length_app in Hf; simpl in Hf; lia|].
    assert (exists c s, l ++ x0a :: concat (map (fun l0 => l0 ++ [x0a]) lines) ++ last
                        = c :: s) as (c & s & Es).
    { destruct l; simpl; eauto. }
    cbn [read_loop]. unfold fgets. rewrite Es, <- Es.
    rewrite fgets_take_line by (auto; lia). cbv zeta.
    rewrite (proj1 (stored_line l Fn Fz)).
    match goal with
    | |- context [read_loop size fuel _ ?c (entries ++ [l])] =>
        destruct (IH fuel c (entries ++ [l])) as [cap' ->]
    end.
    + rewrite length_app in Hf. simpl in Hf. lia.
    + exists cap'. now rewrite <- !app_assoc.
Qed.

(** X10. Reading gives back the lines of a file.  When every line, its newline
    included, fits in the buffer and holds no NUL, a reader returns the
    lines of the file in order, without their newlines; a last line that
    has no newline is returned too, and a blank line gives an empty
    entry. *)
Theorem readers_return_the_lines size lines last :
  Forall (fits_buffer size) lines ->
  length last < size -> ~ In x0a last -> ~ In x00 last ->
  read_lines size (Some (file_of lines last)) =
  Some (Some (lines ++ last_entry last)).
Proof.
  intros F Hl Hn1 Hn2. unfold read_lines.
  destruct (read_loop_lines size lines last F Hl Hn1 Hn2
              (length (file_of lines last)) 10 [] (Nat.le_refl _)) as [cap ->].
  reflexivity.
Qed.

(** A dictionary file of three lines, one of them blank, and a stopword
    file whose last line has no newline. *)
Lemma readers_return_the_lines_witness :
  read_dict (Some (file_of [bytes_of "自然"; []; bytes_of "语言"] [])) =
  Some (Some [bytes_of "自然"; []; bytes_of "语言"]) /\
  read_stopwords (Some (file_of [bytes_of "的"] (bytes_of "了"))) =
  Some (Some [bytes_of "的"; bytes_of "了"]).
Proof.
  split.
  - apply (readers_return_the_lines 256 [bytes_of "自然"; []; bytes_of "语言"] []).
    + repeat constructor; simpl; try lia;
        intros H; repeat (destruct H as [H|H]; [discriminate H|]); exact H.
    + simpl. lia.
    + simpl. tauto.
    + simpl. tauto.
  - apply (readers_return_the_lines 256 [bytes_of "的"] (bytes_of "了")).
    + repeat constructor; simpl; try lia;
        intros H; repeat (destruct H as [H|H]; [discriminate H|]); exact H.
    + simpl. lia.
    + intros H; repeat (destruct H as [H|H]; [discriminate H|]); exact H.
    + intros H; repeat (destruct H as [H|H]; [discriminate H|]); exact H.
Defined.

(** ** Lines longer than the buffer *)

Lemma fgets_consumes size c rest chunk unread :
  2 <= size -> fgets_take (size - 1) (c :: rest) = (chunk, unread) ->
  length unread < length (c :: rest).
Proof.
  intros Hsize E. destruct (fgets_take_spec _ _ _ _ E) as (H1 & _ & H3 & _).
  assert (length chunk + length unread = length (c :: rest)) as Hlen
      by (now rewrite <- H1, length_app).
  destruct chunk; [|simpl in *; lia].
  destruct (H3 eq_refl); [lia|discriminate].
Qed.

Lemma read_loop_stored size :
  2 <= size ->
  forall fuel stream capacity entries,
    length stream <= fuel ->
    exists capacity',
      read_loop size fuel stream capacity entries =
      Some (entries ++ stored_entries size fuel stream, capacity').
Proof.
  intros Hsize. induction fuel as [|fuel IH]; intros stream capacity entries Hf.
  - destruct stream; [|simpl in Hf; lia]. exists capacity. simpl.
    now rewrite app_nil_r.
  - destruct stream as [|c rest].
    + exists capacity. simpl. now rewrite app_nil_r.
    + cbn [read_loop stored_entries fgets].
      destruct (fgets_take (size - 1) (c :: rest)) as [chunk unread] eqn:E.
      pose proof (fgets_consumes _ _ _ _ _ Hsize E) as Hlt. cbv zeta.
      match goal with
      | |- context [read_loop size fuel unread ?c ?a] =>
          destruct (IH unread c a) as [cap' ->]
      end; [simpl in *; lia|].
      exists cap'. now rewrite <- app_assoc.
Qed.

Lemma stored_entries_fuel size :
  2 <= size ->
  forall fuel1 fuel2 stream,
    length stream <= fuel1 -> length stream <= fuel2 ->
    stored_entries size fuel1 stream = stored_entries size fuel2 stream.
Proof.
  intros Hsize. induction fuel1 as [|fuel1 IH]; intros fuel2 stream H1 H2.
  - destruct stream; [|simpl in H1; lia]. now destruct fuel2.
  - destruct stream as [|c rest]; [now destruct fuel2|].
    destruct fuel2 as [|fuel2]; [simpl in H2; lia|].
    cbn [stored_entries fgets].
    destruct (fgets_take (size - 1) (c :: rest)) as [chunk unread] eqn:E.
    pose proof (fgets_consumes _ _ _ _ _ Hsize E) as Hlt.
    f_equal. apply IH; simpl in *; lia.
Qed.

Lemma read_lines_stored size stream :
  2 <= size ->
  read_lines size (Some stream) =
  Some (Some (stored_entries size (length stream) stream)).
Proof.
  intros Hsize. unfold read_lines.
  destruct (read_loop_stored size Hsize (length stream) stream 10 []
              (Nat.le_refl _)) as [cap ->].
  reflexivity.
Qed.

Lemma filter_no_newline l : ~ In x0a l -> without_newlines l = l.
Proof.
  unfold without_newlines. induction l as [|c l IH]; simpl; intros H;
    [reflexivity|].
  destruct (byte_eqb_spec c x0a) as [->|_]; [tauto|]. simpl.
  rewrite IH; tauto.
Qed.

Lemma stored_entries_concat size :
  2 <= size ->
  forall fuel stream,
    length stream <= fuel -> ~ In x00 stream ->
    concat (stored_entries size fuel stream) = without_newlines stream.
Proof.
  intros Hsize. induction fuel as [|fuel IH]; intros stream Hf Hz.
  - destruct stream; [reflexivity|simpl in Hf; lia].
  - destruct stream as [|c rest]; [reflexivity|].
    cbn [stored_entries fgets].
    destruct (fgets_take (size - 1) (c :: rest)) as [chunk unread] eqn:E.
    pose proof (fgets_consumes _ _ _ _ _ Hsize E) as Hlt.
    destruct (fgets_take_spec _ _ _ _ E) as (H1 & _ & _ & H4).
    assert (~ In x00 chunk /\ ~ In x00 unread) as [Hzc Hzu].
    { rewrite <- H1 in Hz. split; intros H; apply Hz, in_or_app; auto. }
    cbn [concat]. rewrite IH by (auto; simpl in *; lia).
    rewrite <- H1. unfold without_newlines at 2. rewrite filter_app.
    fold (without_newlines chunk) (without_newlines unread). f_equal.
    destruct H4 as [H4|(body & -> & H4)].
    + rewrite (proj2 (stored_line chunk H4 Hzc)). symmetry.
      now apply filter_no_newline.
    + assert (~ In x00 body) as Hzb
          by (intros H; apply Hzc, in_or_app; auto).
      rewrite (proj1 (stored_line body H4 Hzb)).
      unfold without_newlines. rewrite filter_app. simpl.
      fold (without_newlines body).
      now rewrite filter_no_newline, app_nil_r.
Qed.

(** X11. Reading loses nothing but the newlines: on a file without NUL, the
    entries of a reader, one after the other, are the bytes of the file
    that are not newlines, whatever the length of its lines. *)
Theorem readers_lose_only_newlines size stream :
  2 <= size -> ~ In x00 stream ->
  exists entries,
    read_lines size (Some stream) = Some (Some entries) /\
    concat entries = without_newlines stream.
Proof.
  intros Hsize Hz. exists (stored_entries size (length stream) stream).
  split; [now apply read_lines_stored|].
  now apply stored_entries_concat.
Qed.

Lemma fgets_take_exact l rest :
  ~ In x0a l -> fgets_take (length l) (l ++ rest) = (l, rest).
Proof.
  induction l as [|x l IH]; intros Hn; [reflexivity|]. simpl.
  destruct (byte_eqb_spec x x0a) as [->|_]; [simpl in Hn; tauto|].
  rewrite IH; [reflexivity|simpl in Hn; tauto].
Qed.

(** X12. A line of more bytes than the buffer holds is cut: the first
    [size - 1] bytes are one entry, and reading goes on with the bytes that
    follow as if they started the file.  So a line of exactly [size - 1]
    bytes is followed by an empty entry, read from its newline. *)
Theorem reader_cuts_long_lines size chunk rest :
  2 <= size -> length chunk = size - 1 ->
  ~ In x0a chunk -> ~ In x00 chunk ->
  exists entries,
    read_lines size (Some rest) = Some (Some entries) /\
    read_lines size (Some (chunk ++ rest)) = Some (Some (chunk :: entries)).
Proof.
  intros Hsize Hl Hn Hz.
  exists (stored_entries size (length rest) rest).
  split; [now apply read_lines_stored|].
  rewrite read_lines_stored by exact Hsize. f_equal. f_equal.
  destruct chunk as [|c chunk]; [simpl in Hl; lia|].
  rewrite length_app. cbn [length Nat.add app stored_entries fgets].
  change (c :: chunk ++ rest) with ((c :: chunk) ++ rest).
  rewrite <- Hl, fgets_take_exact by exact Hn.
  rewrite (proj2 (stored_line (c :: chunk) Hn Hz)). f_equal.
  apply stored_entries_fuel; auto; lia.
Qed.

(** The sentence file "aa...a中" and a newline, with 2045 times "a": the
    three bytes of "中" lie across the end of the buffer of 2048 bytes,
    and the sentence is cut inside the character. *)
Lemma reader_cuts_long_lines_witness :
  read_sentences (Some ((repeat x61 2045 ++ [xe4; xb8]) ++ [xad; x0a])) =
  Some (Some [repeat x61 2045 ++ [xe4; xb8]; [xad]]).
Proof.
  destruct (reader_cuts_long_lines 2048 (repeat x61 2045 ++ [xe4; xb8])
              [xad; x0a]) as (entries & E1 & E2).
  - lia.
  - rewrite length_app, repeat_length. reflexivity.
  - intros H. apply in_app_or in H. destruct H as [H|H].
    + apply repeat_spec in H. discriminate H.
    + repeat (destruct H as [H|H]; [discriminate H|]). exact H.
  - intros H. apply in_app_or in H. destruct H as [H|H].
    + apply repeat_spec in H. discriminate H.
    + repeat (destruct H as [H|H]; [discriminate H|]). exact H.
  - vm_compute in E1. injection E1 as <-. exact E2.
Defined.

(** A file of two lines and a last one without newline. *)
Lemma readers_lose_only_newlines_witness :
  exists entries,
    read_lines 256 (Some (bytes_of "ab" ++ [x0a] ++ bytes_of "c" ++ [x0a; x0a]
                          ++ bytes_of "d")) = Some (Some entries) /\
    concat entries = bytes_of "abcd".
Proof.
  apply (readers_lose_only_newlines 256); [lia|].
  intros H. repeat (destruct H as [H|H]; [discriminate H|]). exact H.
Defined.

(** ** The driver *)

Lemma length_le_sum_counts l :
  Forall (fun e => cstr (word e) = word e /\ (1 <= count e)%Z) l ->
  (Z.of_nat (length l) <= sum_counts l)%Z.
Proof.
  induction 1 as [|e l [_ He] _ IH]; simpl length; simpl sum_counts; lia.
Qed.

Lemma record_all_app ts1 ts2 g :
  record_all (ts1 ++ ts2) g = record_all ts2 (record_all ts1 g).
Proof. unfold record_all. apply fold_left_app. Qed.

Lemma record_all_capacity ts :
  forall g,
    table_ok g -> capacity_ok g ->
    (g_word_count g + Z.of_nat (length ts) <= INT_MAX)%Z ->
    capacity_ok (record_all ts g).
Proof.
  induction ts as [|a ts IH]; intros g Hok Hcap B; [exact Hcap|].
  cbn [record_all fold_left length] in *.
  destruct (add_token_count_keeps_table a g Hok) as [Hok' Hn]; [lia|].
  apply IH; [exact Hok'| |lia].
  apply capacity_after_add; [exact Hcap|].
  destruct Hok as (_ & F & S). pose proof (length_le_sum_counts _ F).
  unfold g_word_total, INT_MAX in *. lia.
Qed.

Lemma tokens_length tr : length (tokens tr) <= length tr.
Proof.
  induction tr as [|s tr IH]; simpl; [lia|].
  destruct (emitted s); simpl; lia.
Qed.

(** What the segmentation of one line does to the file and the table. *)
Lemma segment_line_effect line dict stopwords w :
  exists final w' tr,
    segment_line_in_memory line dict stopwords w = Some (final, w', tr) /\
    seg_file w' = seg_file w ++ concat (map render (tokens tr)) ++ [x0a] /\
    tbl w' = record_all (tokens tr) (tbl w) /\
    length (tokens tr) <= length line /\
    forall t b, In t (tokens tr) -> In b t -> In b line.
Proof.
  destruct (segment_line_total line dict stopwords w)
    as (final & w' & tr & H & Hlen & _).
  exists final, w', tr. split; [exact H|].
  unfold segment_line_in_memory in H.
  destruct (segment_loop (strlen line) line dict stopwords 0 w)
    as [[[f w0] tr0]|] eqn:E; [|discriminate].
  injection H as _ <- <-. cbn [seg_file tbl].
  destruct (segment_loop_world _ _ _ _ _ _ _ _ _ E) as [-> ->].
  split; [now rewrite <- app_assoc|]. split; [reflexivity|]. split.
  - pose proof (tokens_length tr0). pose proof (strlen_le_length line). lia.
  - intros t b Ht Hb. apply in_tokens in Ht. destruct Ht as (s & Hs & Es).
    pose proof (segment_loop_trace _ _ _ _ _ _ _ _ _ E) as T.
    rewrite Forall_forall in T. destruct (T s Hs) as [Hlt Hstep].
    rewrite Hstep in Es.
    destruct (segment_step_token_slice _ _ _ _ _ Hlt Es) as (_ & _ & Et).
    rewrite Et in Hb. unfold substr in Hb.
    apply in_firstn, in_skipn in Hb.
    clear - Hb. induction line as [|c line IH]; simpl in Hb; [contradiction|].
    destruct (is_nul c); [contradiction|].
    destruct Hb as [<-|Hb]; [now left|right; auto].
Qed.

Lemma newlines_app a b : newlines (a ++ b) = newlines a + newlines b.
Proof. apply count_occ_app. Qed.

Lemma newlines_rendered ts :
  (forall t, In t ts -> ~ In x0a t) ->
  newlines (concat (map render ts)) = 0.
Proof.
  induction ts as [|t ts IH]; intros H; [reflexivity|].
  cbn [map concat]. rewrite newlines_app, IH by (intros; apply H; now right).
  unfold render. rewrite !newlines_app.
  assert (newlines t = 0) as -> by (apply count_occ_not_In, H; now left).
  reflexivity.
Qed.

Lemma segment_all_effect dict stopwords sentences :
  forall w,
    exists w' ts,
      segment_all sentences dict stopwords w = Some w' /\
      tbl w' = record_all ts (tbl w) /\
      length ts <= length (concat sentences) /\
      (Forall (fun l => ~ In x0a l) sentences ->
       newlines (seg_file w') = newlines (seg_file w) + length sentences).
Proof.
  induction sentences as [|line sentences IH]; intros w.
  - exists w, []. simpl. repeat split; auto.
  - destruct (segment_line_effect line dict stopwords w)
      as (final & w1 & tr & E & Hf & Ht & Hl & Hs).
    destruct (IH w1) as (w' & ts & E' & Ht' & Hl' & Hn').
    exists w', (tokens tr ++ ts). cbn [segment_all]. rewrite E.
    split; [exact E'|]. split; [|split].
    + now rewrite record_all_app, <- Ht.
    + cbn [concat]. rewrite !length_app. lia.
    + intros F. inversion F as [|? ? Fl Fs]; subst.
      rewrite (Hn' Fs), Hf, !newlines_app.
      rewrite newlines_rendered by (intros t Ht0 Hx; apply Fl; eauto).
      assert (newlines [x0a] = 1) as -> by reflexivity.
      simpl. lia.
Qed.

Lemma qsort_post_nil {A} (compar : A -> A -> Z) sorted :
  qsort_post compar [] sorted -> sorted = [].
Proof. intros [P _]. now apply Permutation_nil. Qed.

(** X13. When one of the three files cannot be opened, [main] segments
    nothing: segmented.txt stays empty, the table stays empty with
    [g_word_count] 0, and the report has no line. *)
Theorem main_without_an_input fs :
  dict_file fs = None \/ sentence_file fs = None \/ stop_file fs = None ->
  main_segmentation fs = Some empty_world /\
  g_word_count (tbl empty_world) = 0%Z /\
  forall report, main_report (tbl empty_world) report -> report = [].
Proof.
  intros H. split; [|split; [reflexivity|]].
  - unfold main_segmentation, read_dict, read_sentences, read_stopwords.
    destruct (dict_file fs) as [d|], (sentence_file fs) as [s|],
      (stop_file fs) as [sw|];
      try (destruct H as [H|[H|H]]; discriminate H);
      rewrite ?read_lines_stored by lia; reflexivity.
  - intros report (sorted & P & ->). apply qsort_post_nil in P. now subst.
Qed.

Lemma main_segmentation_present fs d s sw :
  dict_file fs = Some d -> sentence_file fs = Some s -> stop_file fs = Some sw ->
  exists dictionary sentences stopwords,
    read_sentences (Some s) = Some (Some sentences) /\
    Forall (fun l => ~ In x0a l) sentences /\
    length (concat sentences) <= length s /\
    main_segmentation fs =
    segment_all sentences dictionary stopwords empty_world.
Proof.
  intros Hd Hs Hw. unfold main_segmentation. rewrite Hd, Hs, Hw.
  destruct (read_lines_bounded 2048 (Some s)) as (sentences & E & F & _ & C);
    [lia|].
  unfold read_dict, read_stopwords, read_sentences.
  rewrite E, !read_lines_stored by lia.
  eexists _, sentences, _. split; [reflexivity|]. split; [|split].
  - eapply Forall_impl; [|exact F]. simpl. tauto.
  - exact C.
  - reflexivity.
Qed.

(** X14. With the three files present, [main] writes one line of segmented.txt
    for each sentence [read_sentences] returned. *)
Theorem main_writes_a_line_per_sentence fs d s sw :
  dict_file fs = Some d -> sentence_file fs = Some s -> stop_file fs = Some sw ->
  exists sentences w,
    read_sentences (Some s) = Some (Some sentences) /\
    main_segmentation fs = Some w /\
    newlines (seg_file w) = length sentences.
Proof.
  intros Hd Hs Hw.
  destruct (main_segmentation_present fs d s sw Hd Hs Hw)
    as (dictionary & sentences & stopwords & E & F & _ & ->).
  destruct (segment_all_effect dictionary stopwords sentences empty_world)
    as (w & ts & Ew & _ & _ & Hn).
  exists sentences, w. split; [exact E|]. split; [exact Ew|].
  now rewrite (Hn F).
Qed.

(** Two sentences, the second without newline, with a dictionary and a
    stopword file. *)
Lemma main_writes_a_line_per_sentence_witness :
  let fs := {| dict_file := Some (file_of [bytes_of "自然"; bytes_of "语言"] []);
               sentence_file :=
                 Some (file_of [bytes_of "自然语言！"] (bytes_of "语言的自然"));
               stop_file := Some (file_of [bytes_of "的"] []) |} in
  exists sentences w,
    read_sentences (sentence_file fs) = Some (Some sentences) /\
    main_segmentation fs = Some w /\
    newlines (seg_file w) = length sentences.
Proof.
  intros fs.
  exact (main_writes_a_line_per_sentence fs _ _ _ eq_refl eq_refl eq_refl).
Defined.

(** X15. With the three files present and a sentence file of at most [INT_MAX]
    bytes, the table [main] sorts has distinct words and counts of at
    least 1, its array holds its entries, [g_word_count] is the sum of the
    counts and at most the number of bytes of the sentence file, and every
    entry of the report has a count between 1 and [g_word_count]. *)
Theorem main_table_is_consistent fs d s sw :
  dict_file fs = Some d -> sentence_file fs = Some s -> stop_file fs = Some sw ->
  (Z.of_nat (length s) <= INT_MAX)%Z ->
  exists w,
    main_segmentation fs = Some w /\
    table_ok (tbl w) /\ capacity_ok (tbl w) /\
    (0 <= g_word_count (tbl w) <= Z.of_nat (length s))%Z /\
    forall report,
      main_report (tbl w) report ->
      forall e, In e report -> (1 <= count e <= g_word_count (tbl w))%Z.
Proof.
  intros Hd Hs Hw B.
  destruct (main_segmentation_present fs d s sw Hd Hs Hw)
    as (dictionary & sentences & stopwords & _ & _ & C & ->).
  destruct (segment_all_effect dictionary stopwords sentences empty_world)
    as (w & ts & Ew & Ht & Hl & _).
  exists w. split; [exact Ew|]. rewrite Ht. cbn [tbl empty_world].
  assert (table_ok empty_globals) as Hok0 by (repeat split; simpl; constructor).
  assert (capacity_ok empty_globals) as Hcap0
      by (unfold capacity_ok; vm_compute; split; congruence).
  assert (g_word_count empty_globals + Z.of_nat (length ts) <= INT_MAX)%Z as B'
      by (simpl; lia).
  destruct (record_all_keeps_table ts empty_globals Hok0 B') as (Hok & Hn & _).
  split; [exact Hok|].
  split; [exact (record_all_capacity ts empty_globals Hok0 Hcap0 B')|].
  split; [rewrite Hn; simpl; lia|].
  intros report (sorted & (P & _) & ->) e He.
  destruct Hok as (_ & F & S). rewrite <- S.
  apply (proj1 (proj2 (counts_below_sum _ F))).
  apply in_firstn in He. eapply Permutation_in; [symmetry; exact P|exact He].
Qed.

(** The same two sentences: 31 bytes in the sentence file. *)
Lemma main_table_is_consistent_witness :
  let fs := {| dict_file := Some (file_of [bytes_of "自然"; bytes_of "语言"] []);
               sentence_file :=
                 Some (file_of [bytes_of "自然语言！"] (bytes_of "语言的自然"));
               stop_file := Some (file_of [bytes_of "的"] []) |} in
  exists w,
    main_segmentation fs = Some w /\
    table_ok (tbl w) /\ capacity_ok (tbl w) /\
    (0 <= g_word_count (tbl w) <= 31)%Z /\
    forall report,
      main_report (tbl w) report ->
      forall e, In e report -> (1 <= count e <= g_word_count (tbl w))%Z.
Proof.
  intros fs.
  apply (main_table_is_consistent fs _ _ _ eq_refl eq_refl eq_refl).
  vm_compute. congruence.
Defined.

(** The dictionary file is missing; the two other files are there. *)
Lemma main_without_an_input_witness :
  let fs := {| dict_file := None;
               sentence_file := Some (file_of [bytes_of "自然语言！"] []);
               stop_file := Some (file_of [bytes_of "的"] []) |} in
  main_segmentation fs = Some empty_world /\
  g_word_count (tbl empty_world) = 0%Z /\
  forall report, main_report (tbl empty_world) report -> report = [].
Proof.
  intros fs. apply (main_without_an_input fs). left. reflexivity.
Defined.

(** ** The tokenizer on well-formed text *)

(** X16. On a line of well-formed text of one- to three-byte characters that
    does not end with an ASCII apostrophe, the dictionary entries being
    such text too, the cursor stops exactly at the end of the line and the
    spans of the iterations cover the line: they follow one another from 0,
    none reaches past the end, and their bytes are the line. *)
Theorem well_formed_line_is_covered line dict stopwords w :
  well_formed (cstr line) ->
  Forall (fun d => well_formed (cstr d)) dict ->
  last (cstr line) x00 <> x27 ->
  exists final w' tr,
    segment_line_in_memory line dict stopwords w = Some (final, w', tr) /\
    final = strlen line /\ covers line tr.
Proof.
  intros Hline Hdict Hq.
  destruct (segment_line_total line dict stopwords w)
    as (final & w' & tr & H & _).
  exists final, w', tr. split; [exact H|].
  exact (covers_well_formed_line line dict stopwords w final w' tr
           Hline Hdict Hq H).
Qed.

(** The line of the round-trip scenario. *)
Lemma well_formed_line_is_covered_witness :
  let line := bytes_of "自然语言处理！" in
  let dict := [bytes_of "自然"; bytes_of "语言"; bytes_of "处理"] in
  exists final w' tr,
    segment_line_in_memory line dict [] empty_world = Some (final, w', tr) /\
    final = strlen line /\ covers line tr.
Proof.
  intros line dict. apply well_formed_line_is_covered.
  - vm_compute. reflexivity.
  - repeat constructor.
  - vm_compute. discriminate.
Defined.

(** X17. At the start of well-formed text the scanner returns the length of
    the first character: that many bytes are there, they are one
    well-formed character, and the text after them is well formed. *)
Theorem scanner_measures_first_character s :
  well_formed s -> s <> [] ->
  let k := get_utf8_char_len s in
  1 <= k <= 3 /\ k <= length s /\
  well_formed (firstn k s) /\ well_formed (skipn k s) /\
  is_cont (deref s) = false /\
  (forall j, 0 < j < k -> is_cont (nth j s x00) = true).
Proof.
  intros Hs Hne k.
  destruct (utf8_3_head s Hs Hne) as (K1 & K2 & K3 & K4 & _).
  fold k in K1, K2, K3. pose proof (utf8_len_bounds s) as B. fold k in B.
  split; [exact B|]. split; [exact K1|]. split; [exact K2|].
  split; [exact K3|]. split; [exact K4|].
  clear K1 K2 K3 K4 B. subst k. unfold well_formed in Hs.
  destruct s as [|b rest]; [congruence|].
  unfold get_utf8_char_len. cbn [deref hd]. rewrite scanner_on_lead.
  cbn [utf8_3] in Hs. destruct (is_nul b); [discriminate|].
  destruct (high_bit_clear b); [intros j Hj; lia|].
  destruct (is_lead2 b).
  - destruct rest as [|c rest]; [discriminate|]. cbn [utf8_3] in Hs.
    apply andb_true_iff in Hs. destruct Hs as [Hc _].
    intros j Hj. assert (j = 1) as -> by lia. exact Hc.
  - destruct (is_lead3 b); [|discriminate].
    destruct rest as [|c [|d rest]]; try discriminate.
    + cbn [utf8_3] in Hs. apply andb_true_iff in Hs. destruct Hs as [_ Hs].
      discriminate.
    + cbn [utf8_3] in Hs. apply andb_true_iff in Hs. destruct Hs as [Hc Hs].
      apply andb_true_iff in Hs. destruct Hs as [Hd _].
      intros j Hj. assert (j = 1 \/ j = 2) as [-> | ->] by lia; assumption.
Qed.

(** The scanner on "中国" and on "é中". *)
Lemma scanner_measures_first_character_witness :
  (get_utf8_char_len (bytes_of "中国") = 3 /\
   well_formed (skipn 3 (bytes_of "中国"))) /\
  (get_utf8_char_len (bytes_of "é中") = 2 /\
   well_formed (skipn 2 (bytes_of "é中"))).
Proof.
  split.
  - destruct (scanner_measures_first_character (bytes_of "中国"))
      as (_ & _ & _ & H & _); [reflexivity|discriminate|].
    split; [reflexivity|exact H].
  - destruct (scanner_measures_first_character (bytes_of "é中"))
      as (_ & _ & _ & H & _); [reflexivity|discriminate|].
    split; [reflexivity|exact H].
Defined.

(** X18. The result of the scanner does not depend on whether [char] is signed:
    on the value of the byte promoted from [signed char] and from
    [unsigned char] the three masks select the same branch. *)
Theorem scanner_ignores_char_signedness b :
  utf8_len_of_int (schar b) = utf8_len_of_int (uchar b) /\
  (-128 <= schar b <= 127)%Z /\ (0 <= uchar b <= 255)%Z /\
  (schar b mod 256 = uchar b)%Z.
Proof. destruct b; repeat split; vm_compute; congruence. Qed.

(** ** Punctuation and tokens *)

(** X19. Where the check at the top of the loop has failed, the second check
    of the fallback branch succeeds exactly on an ASCII apostrophe that is
    followed by another byte of the line; the apostrophe is then not
    written and the cursor advances by 1. *)
Theorem second_check_catches_inner_apostrophe line dict stopwords start :
  check_punctuation (skipn start line) = None ->
  dict_match MAX_CHINESE_BYTES line dict start = None ->
  (check_punctuation (fallback_temp line start) <> None <->
   exists b l, cstr (skipn start line) = x27 :: b :: l) /\
  ((exists b l, cstr (skipn start line) = x27 :: b :: l) ->
   segment_step line dict stopwords start =
   {| pos := start; kind := Fallback; consumed := 1; emitted := None |}).
Proof.
  intros Htop Hd. pose proof (recheck_succeeds_iff line start Htop) as Hiff.
  split; [exact Hiff|]. intros Hex.
  pose proof (proj2 Hiff Hex) as Hre.
  destruct Hex as (b & l & Hcs).
  unfold segment_step. rewrite Htop, Hd. unfold fallback_temp in Hre.
  destruct (check_punctuation (strncpy0 _ _)); [|congruence].
  cbn [is_some negb andb].
  unfold get_utf8_char_len. now rewrite (cstr_cons_inv _ _ _ Hcs).
Qed.

(** The apostrophe of "it's". *)
Lemma second_check_catches_inner_apostrophe_witness :
  let line := bytes_of "it's" in
  check_punctuation (fallback_temp line 2) <> None /\
  segment_step line [] [] 2 =
  {| pos := 2; kind := Fallback; consumed := 1; emitted := None |}.
Proof.
  intros line.
  destruct (second_check_catches_inner_apostrophe line [] [] 2 eq_refl eq_refl)
    as [H1 H2].
  assert (exists b l, cstr (skipn 2 line) = x27 :: b :: l) as Hex
      by (eexists _, _; reflexivity).
  split; [exact (proj2 H1 Hex)|exact (H2 Hex)].
Defined.

(** X20. No token starts with the bytes an entry of the table is compared
    on (the first [bytes] bytes of its pattern), for every entry whose
    pattern has that many bytes: all of them but the two that pair the
    one-byte apostrophe with the length 3. *)
Theorem tokens_never_start_with_punctuation line dict stopwords w :
  exists final w' tr,
    segment_line_in_memory line dict stopwords w = Some (final, w', tr) /\
    forall t p,
      In t (tokens tr) -> In p PUNCTUATIONS ->
      bytes p <= length (punct p) ->
      firstn (bytes p) t <> compared p.
Proof.
  destruct (segment_line_total line dict stopwords w)
    as (final & w' & tr & H & _).
  exists final, w', tr. split; [exact H|].
  unfold segment_line_in_memory in H.
  destruct (segment_loop (strlen line) line dict stopwords 0 w)
    as [[[f w0] tr0]|] eqn:E; [|discriminate].
  injection H as _ _ <-.
  pose proof (segment_loop_trace _ _ _ _ _ _ _ _ _ E) as T.
  rewrite Forall_forall in T.
  intros t p Ht Hp Hl Hpre. apply in_tokens in Ht.
  destruct Ht as (s & Hs & Es). destruct (T s Hs) as [Hlt Hstep].
  rewrite Hstep in Es.
  destruct (segment_step_token_slice _ _ _ _ _ Hlt Es) as (_ & _ & Et).
  assert (check_punctuation (skipn (pos s) line) = None) as Htop.
  { revert Es. unfold segment_step.
    destruct (check_punctuation (skipn (pos s) line)); [discriminate|auto]. }
  pose proof (check_punctuation_in_none _ _ Htop p Hp) as Hno.
  destruct (punctuation_entries p Hp) as [(_ & Hc & _)|[Hb Hq]].
  - assert (strncmp_eq (skipn (pos s) line) (punct p) (bytes p) = true) as Hyes.
    { apply (prefix_entry_match _ p Hl Hc).
      rewrite cstr_skipn by lia.
      rewrite Et in Hpre. unfold substr in Hpre.
      rewrite firstn_firstn in Hpre.
      assert (Nat.min (bytes p) (length t) = bytes p) as Hmin.
      { apply (f_equal (@length byte)) in Hpre.
        rewrite length_firstn, length_compared in Hpre by exact Hl. lia. }
      rewrite Hmin, <- Hstep in Hpre. exact Hpre. }
    congruence.
  - rewrite Hq, Hb in Hl. simpl in Hl. lia.
Qed.
